(** * A byte-level BPE tokenizer: model of [tokenizer.py] and its properties

    The development embeds the [Tokenizer] class of [tokenizer.py]:
    the constructor, [get_stats], [merge_tokens], [encode], [decode] and
    [train].  Python integers are [Z]; a [bytes] object is the list of its
    byte values; a [str] is the list of its code points.  Dictionaries whose
    iteration order the program observes ([stats], [merges]) are
    insertion-ordered association lists; the vocabulary, which is only ever
    looked up by key, is a [gmap]. *)

From Stdlib Require Import ZArith List Lia Bool Ascii String.
From stdpp Require Import base gmap.
Import ListNotations.
Open Scope Z_scope.

(** ** Python values and exceptions *)

Abbreviation str := (list Z).
Abbreviation bytes := (list Z).
Abbreviation pair := (Z * Z)%type.

(** The exception classes that the modelled code can raise, together with
    [InsufficientDataError], which the specification names. *)
Inductive exn :=
| ValueError
| KeyError
| TypeError
| UnicodeEncodeError
| InsufficientDataError.

Inductive result (A : Type) :=
| Ok (a : A)
| Raise (e : exn).
Arguments Ok {A} a.
Arguments Raise {A} e.

Definition bind {A B} (r : result A) (k : A -> result B) : result B :=
  match r with
  | Ok a => k a
  | Raise e => Raise e
  end.

Notation "'let*' x := r 'in' k" := (bind r (fun x => k))
  (at level 10, x name, r at level 100, k at level 200).

(** A string literal of ASCII characters, as a [str]. *)
Definition py_str (s : string) : str :=
  map (fun c => Z.of_nat (nat_of_ascii c)) (list_ascii_of_string s).

(** [range(n)] *)
Definition range (n : Z) : list Z := seqZ 0 n.

(** ** Insertion-ordered dictionaries

    [d[k] = v] keeps the position of a key that is already present and
    appends a new key at the end; iteration follows that order. *)
Module odict.
Section odict.
Context {K V : Type} `{EqDecision K}.

Fixpoint get (d : list (K * V)) (k : K) : option V :=
  match d with
  | [] => None
  | (k', v) :: r => if decide (k = k') then Some v else get r k
  end.

Fixpoint set (d : list (K * V)) (k : K) (v : V) : list (K * V) :=
  match d with
  | [] => [(k, v)]
  | (k', v') :: r =>
      if decide (k = k') then (k', v) :: r else (k', v') :: set r k v
  end.

Definition keys (d : list (K * V)) : list K := map fst d.
Definition values (d : list (K * V)) : list V := map snd d.
End odict.
End odict.

(** ** The UTF-8 codec

    [str.encode("utf-8")] is strict: a surrogate code point raises
    [UnicodeEncodeError].  [bytes.decode("utf-8", errors="replace")] never
    raises: each maximal ill-formed prefix becomes U+FFFD. *)
Module utf8.

Definition is_scalar (c : Z) : bool :=
  ((0 <=? c) && (c <? 55296)) || ((57344 <=? c) && (c <? 1114112)).

Definition encode_cp (c : Z) : bytes :=
  if c <? 128 then [c]
  else if c <? 2048 then [192 + c / 64; 128 + c mod 64]
  else if c <? 65536 then
    [224 + c / 4096; 128 + (c / 64) mod 64; 128 + c mod 64]
  else
    [240 + c / 262144; 128 + (c / 4096) mod 64;
     128 + (c / 64) mod 64; 128 + c mod 64].

Definition encode_bytes (s : str) : bytes := concat (map encode_cp s).

Definition encode (s : str) : result bytes :=
  if forallb is_scalar s then Ok (encode_bytes s)
  else Raise UnicodeEncodeError.

Definition replacement : Z := 65533.

Definition in_range (lo hi b : Z) : bool := (lo <=? b) && (b <=? hi).
Definition cont (b : Z) : bool := in_range 128 191 b.

(** Bounds of the second byte allowed after lead byte [b0]. *)
Definition second_lo (b0 : Z) : Z :=
  if b0 =? 224 then 160 else if b0 =? 240 then 144 else 128.
Definition second_hi (b0 : Z) : Z :=
  if b0 =? 237 then 159 else if b0 =? 244 then 143 else 191.

(** Number of continuation bytes a lead byte announces; [None] for a
    byte that cannot start a sequence. *)
Definition trail (b0 : Z) : option nat :=
  if in_range 0 127 b0 then Some 0%nat
  else if in_range 194 223 b0 then Some 1%nat
  else if in_range 224 239 b0 then Some 2%nat
  else if in_range 240 244 b0 then Some 3%nat
  else None.

(** One decoding step on a non-empty input [b0 :: rest]: the code point
    produced and the input that remains. *)
Definition step (b0 : Z) (rest : bytes) : Z * bytes :=
  match trail b0 with
  | None => (replacement, rest)
  | Some 0%nat => (b0, rest)
  | Some 1%nat =>
      match rest with
      | b1 :: r1 =>
          if cont b1 then ((b0 - 192) * 64 + (b1 - 128), r1)
          else (replacement, rest)
      | [] => (replacement, rest)
      end
  | Some 2%nat =>
      match rest with
      | b1 :: r1 =>
          if in_range (second_lo b0) (second_hi b0) b1 then
            match r1 with
            | b2 :: r2 =>
                if cont b2 then
                  ((b0 - 224) * 4096 + (b1 - 128) * 64 + (b2 - 128), r2)
                else (replacement, r1)
            | [] => (replacement, r1)
            end
          else (replacement, rest)
      | [] => (replacement, rest)
      end
  | Some _ =>
      match rest with
      | b1 :: r1 =>
          if in_range (second_lo b0) (second_hi b0) b1 then
            match r1 with
            | b2 :: r2 =>
                if cont b2 then
                  match r2 with
                  | b3 :: r3 =>
                      if cont b3 then
                        ((b0 - 240) * 262144 + (b1 - 128) * 4096
                         + (b2 - 128) * 64 + (b3 - 128), r3)
                      else (replacement, r2)
                  | [] => (replacement, r2)
                  end
                else (replacement, r1)
            | [] => (replacement, r1)
            end
          else (replacement, rest)
      | [] => (replacement, rest)
      end
  end.

(** Every step consumes at least one byte, so [length bs] steps are
    enough; [decode_replace] runs with exactly that bound. *)
Fixpoint decode_fuel (fuel : nat) (bs : bytes) : str :=
  match fuel, bs with
  | S fuel', b0 :: rest =>
      let '(c, rest') := step b0 rest in c :: decode_fuel fuel' rest'
  | _, _ => []
  end.

Definition decode_replace (bs : bytes) : str := decode_fuel (length bs) bs.

End utf8.

(** ** The tokenizer state *)

Definition SPECIAL_TOKENS : list (string * Z) :=
  [("<PAD>"%string, 0); ("<UNK>"%string, 1);
   ("<BOS>"%string, 2); ("<EOS>"%string, 3)].

Abbreviation stats_t := (list (pair * Z)).
Abbreviation merges_t := (list (pair * Z)).

Record Tokenizer := mkTokenizer {
  vocab_size : Z;
  vocab : gmap Z bytes;
  merges : merges_t;
  stats_cache : list (list Z * stats_t)
}.

(** [Tokenizer.__init__]: the 256 single-byte entries, then the special
    tokens written over ids 0 to 3.  The names are ASCII, so encoding them
    cannot raise. *)
Definition init (vocab_size : Z) : Tokenizer :=
  let vocab0 : gmap Z bytes :=
    fold_left (fun v idx => <[idx := [idx]]> v) (range 256) ∅ in
  let vocab1 :=
    fold_left (fun v kv => <[snd kv := utf8.encode_bytes (py_str (fst kv))]> v)
              SPECIAL_TOKENS vocab0 in
  mkTokenizer vocab_size vocab1 [] [].
Arguments init : simpl never.

(** ** [get_stats] and [merge_tokens] *)

(** [get_stats]: one left-to-right pass over [zip(tokens, tokens[1:])]. *)
Definition get_stats (tokens : list Z) : stats_t :=
  fold_left
    (fun counts p => odict.set counts p (default 0 (odict.get counts p) + 1))
    (zip tokens (tail tokens)) [].

(** [merge_tokens]: the recursion is on the suffix [tokens[i:]] still to be
    scanned; [i += 2] drops two elements, [i += 1] one. *)
Fixpoint merge_tokens (tokens : list Z) (p : pair) (idx : Z) : list Z :=
  match tokens with
  | [] => []
  | t0 :: rest =>
      match rest with
      | t1 :: rest' =>
          if decide (t0 = fst p /\ t1 = snd p)
          then idx :: merge_tokens rest' p idx
          else t0 :: merge_tokens rest p idx
      | [] => [t0]
      end
  end.

(** ** [max] and [min] with a key function

    Both keep the first of several extremal elements and raise
    [ValueError] on an empty iterable. *)

Fixpoint max_from {A} (key : A -> Z) (best : A) (l : list A) : A :=
  match l with
  | [] => best
  | x :: r => if key best <? key x then max_from key x r
              else max_from key best r
  end.

Definition py_max {A} (key : A -> Z) (l : list A) : result A :=
  match l with
  | [] => Raise ValueError
  | x :: r => Ok (max_from key x r)
  end.

(** Keys of the encoder's [min]: a merge id or [float("inf")]. *)
Inductive rank :=
| Int (i : Z)
| Inf.

Definition rank_lt (x y : rank) : bool :=
  match x, y with
  | Int a, Int b => a <? b
  | Int _, Inf => true
  | Inf, _ => false
  end.

Fixpoint min_from {A} (key : A -> rank) (best : A) (l : list A) : A :=
  match l with
  | [] => best
  | x :: r => if rank_lt (key x) (key best) then min_from key x r
              else min_from key best r
  end.

Definition py_min {A} (key : A -> rank) (l : list A) : result A :=
  match l with
  | [] => Raise ValueError
  | x :: r => Ok (min_from key x r)
  end.

(** ** [encode] *)

(** [self.merges.get(p, float("inf"))] *)
Definition merge_rank (m : merges_t) (p : pair) : rank :=
  match odict.get m p with
  | Some i => Int i
  | None => Inf
  end.

(** The body of the [while] loop: [Ok None] is [break], [Ok (Some t)]
    continues with the rewritten sequence. *)
Definition encode_body (m : merges_t) (tokens : list Z)
  : result (option (list Z)) :=
  let stats := get_stats tokens in
  let* p := py_min (merge_rank m) (odict.keys stats) in
  match odict.get m p with
  | None => Ok None
  | Some idx => Ok (Some (merge_tokens tokens p idx))
  end.

(** The [while len(tokens) >= 2] loop, bounded by [fuel] iterations;
    [None] means the bound was reached before the loop ended. *)
Fixpoint encode_loop (fuel : nat) (m : merges_t) (tokens : list Z)
  : option (result (list Z)) :=
  if 2 <=? Z.of_nat (length tokens) then
    match fuel with
    | O => None
    | S fuel' =>
        match encode_body m tokens with
        | Raise e => Some (Raise e)
        | Ok None => Some (Ok tokens)
        | Ok (Some tokens') => encode_loop fuel' m tokens'
        end
    end
  else Some (Ok tokens).

(** [Tokenizer.encode], with as many loop iterations allowed as the text
    has bytes. *)
Definition encode (self : Tokenizer) (text : str)
  : option (result (list Z)) :=
  match utf8.encode text with
  | Raise e => Some (Raise e)
  | Ok tokens => encode_loop (length tokens) (merges self) tokens
  end.

(** ** [decode] *)

(** The argument of [decode] is a tensor of integer ids with at most one
    dimension. *)
Inductive tensor :=
| Scalar (v : Z)
| Vector (vs : list Z).

(** [Tensor.squeeze()]: every dimension of size one is removed. *)
Definition squeeze (t : tensor) : tensor :=
  match t with
  | Vector [v] => Scalar v
  | _ => t
  end.

(** Iterating over a tensor; a 0-d tensor raises [TypeError]. *)
Definition tensor_iter (t : tensor) : result (list Z) :=
  match t with
  | Scalar _ => Raise TypeError
  | Vector vs => Ok vs
  end.

Definition is_special (t : Z) : bool :=
  existsb (Z.eqb t) (odict.values SPECIAL_TOKENS).

(** [[self.vocab[t] for t in token_list]] *)
Fixpoint lookup_all (v : gmap Z bytes) (token_list : list Z)
  : result (list bytes) :=
  match token_list with
  | [] => Ok []
  | t :: r =>
      match v !! t with
      | None => Raise KeyError
      | Some bs => let* rest := lookup_all v r in Ok (bs :: rest)
      end
  end.

Definition decode (self : Tokenizer) (tokens : tensor) : result str :=
  let* ts := tensor_iter (squeeze tokens) in
  let token_list := List.filter (fun t => negb (is_special t)) ts in
  let* chunks := lookup_all (vocab self) token_list in
  let token_bytes := concat chunks in
  Ok (utf8.decode_replace token_bytes).

(** ** [train] *)

(** The merge loop [for i in range(num_merges)].  It returns the merge
    table and the rewritten sequence reached, with the exception if one
    was raised. *)
Fixpoint train_loop (ids : list Z) (copy_tokens : list Z) (m : merges_t)
  : merges_t * list Z * option exn :=
  match ids with
  | [] => (m, copy_tokens, None)
  | i :: ids' =>
      let stats := get_stats copy_tokens in
      match py_max (fun p => default 0 (odict.get stats p))
                   (odict.keys stats) with
      | Raise e => (m, copy_tokens, Some e)
      | Ok p =>
          let idx := 256 + i + Z.of_nat (length SPECIAL_TOKENS) in
          let copy_tokens' := merge_tokens copy_tokens p idx in
          train_loop ids' copy_tokens' (odict.set m p idx)
      end
  end.

(** The vocabulary loop [for (a, b), idx in self.merges.items()]. *)
Fixpoint build_vocab (items : merges_t) (v : gmap Z bytes)
  : gmap Z bytes * option exn :=
  match items with
  | [] => (v, None)
  | ((a, b), idx) :: r =>
      match v !! a, v !! b with
      | Some va, Some vb => build_vocab r (<[idx := va ++ vb]> v)
      | _, _ => (v, Some KeyError)
      end
  end.

Section Train.

(** [re.findall(pat, text)] for the fixed pattern of [train]. *)
Variable findall : str -> list str.

(** [b"".join([item.encode("utf-8") for item in list_of_text])] *)
Fixpoint join_encoded (list_of_text : list str) : result bytes :=
  match list_of_text with
  | [] => Ok []
  | item :: r =>
      let* bs := utf8.encode item in
      let* rest := join_encoded r in
      Ok (bs ++ rest)
  end.

(** [Tokenizer.train]: the state left behind and the exception, if any. *)
Definition train (self : Tokenizer) (text : str) : Tokenizer * option exn :=
  match join_encoded (findall text) with
  | Raise e => (self, Some e)
  | Ok text_bytes =>
      let tokens := text_bytes in
      let num_merges :=
        vocab_size self - 256 - Z.of_nat (length SPECIAL_TOKENS) in
      let '(m, _, e) := train_loop (range num_merges) tokens (merges self) in
      match e with
      | Some e =>
          (mkTokenizer (vocab_size self) (vocab self) m (stats_cache self),
           Some e)
      | None =>
          let '(v, e') := build_vocab m (vocab self) in
          (mkTokenizer (vocab_size self) v m (stats_cache self), e')
      end
  end.

End Train.

(** ** Derived notions used in the statements *)

(** [p] occurs as an adjacent pair of [tokens]. *)
Definition adjacent (p : pair) (tokens : list Z) : Prop :=
  In p (zip tokens (tail tokens)).

(** A raw byte id or a merge id below [bound]. *)
Definition resolved (bound t : Z) : Prop :=
  0 <= t < 256 \/ 256 + Z.of_nat (length SPECIAL_TOKENS) <= t < bound.

(** A pre-tokenizer that returns its text as a single chunk, which is what
    the pattern of [train] yields on one run of letters. *)
Definition whole_text (text : str) : list str := [text].

(** * Properties *)

(** ** Ordered dictionaries *)

Section odict_facts.
Context {K V : Type} `{EqDecision K}.
Implicit Types (d : list (K * V)) (k : K) (v : V).

Lemma odict_get_set_eq d k v : odict.get (odict.set d k v) k = Some v.
Proof.
  induction d as [|[k' v'] d IH]; simpl.
  - case_decide; congruence.
  - case_decide; simpl; case_decide; congruence.
Qed.

Lemma odict_get_set_ne d k k' v :
  k <> k' -> odict.get (odict.set d k v) k' = odict.get d k'.
Proof.
  intros Hne. induction d as [|[k0 v0] d IH]; simpl.
  - case_decide; congruence.
  - case_decide; simpl; case_decide; congruence.
Qed.

Lemma odict_get_None d k : odict.get d k = None <-> ~ In k (odict.keys d).
Proof.
  induction d as [|[k' v'] d IH]; simpl; [tauto|].
  case_decide; split; intros; try congruence; intuition congruence.
Qed.

Lemma odict_get_In d k v : odict.get d k = Some v -> In (k, v) d.
Proof.
  induction d as [|[k' v'] d IH]; simpl; [discriminate|].
  case_decide; intros; [left; congruence | right; auto].
Qed.

Lemma odict_In_get d k v :
  NoDup (odict.keys d) -> In (k, v) d -> odict.get d k = Some v.
Proof.
  induction d as [|[k' v'] d IH]; simpl; [tauto|].
  intros Hnd [Heq|Hin].
  - inversion Heq; subst. case_decide; congruence.
  - inversion Hnd as [|? ? Hk Hd]; subst. case_decide; [|auto].
    subst. exfalso. apply Hk. rewrite list_elem_of_In.
    change k' with (fst (k', v)). now apply in_map.
Qed.

Lemma odict_set_fresh d k v :
  odict.get d k = None -> odict.set d k v = d ++ [(k, v)].
Proof.
  induction d as [|[k' v'] d IH]; simpl; [reflexivity|].
  case_decide; [discriminate|]. intros. now rewrite IH.
Qed.

Lemma odict_keys_set d k v k' :
  In k' (odict.keys (odict.set d k v)) <-> k' = k \/ In k' (odict.keys d).
Proof.
  induction d as [|[k0 v0] d IH]; simpl.
  - intuition congruence.
  - case_decide; simpl; [intuition congruence|].
    rewrite IH. intuition congruence.
Qed.

Lemma odict_get_keys d k v : odict.get d k = Some v -> In k (odict.keys d).
Proof.
  intros Hg. apply odict_get_In in Hg.
  change k with (fst (k, v)). now apply in_map.
Qed.
End odict_facts.

(** ** Lists scanned two elements at a time *)

Lemma list_ind2 {A} (P : list A -> Prop) :
  P [] -> (forall x, P [x]) ->
  (forall x y r, P r -> P (y :: r) -> P (x :: y :: r)) ->
  forall l, P l.
Proof.
  intros H0 H1 H2 l.
  assert (P l /\ forall x, P (x :: l)) as [? _]; [|assumption].
  induction l as [|y r [IHr IHyr]]; split; auto.
Qed.

Lemma adjacent_cons p x y r :
  adjacent p (x :: y :: r) <-> p = (x, y) \/ adjacent p (y :: r).
Proof. unfold adjacent; simpl. intuition congruence. Qed.

Lemma adjacent_short p tokens : (length tokens < 2)%nat -> ~ adjacent p tokens.
Proof.
  destruct tokens as [|x [|y r]]; unfold adjacent; simpl; try tauto; lia.
Qed.

(** ** [get_stats] *)

Lemma get_stats_fold_keys (l : list pair) (acc : stats_t) p :
  In p (odict.keys
          (fold_left
             (fun counts q =>
                odict.set counts q (default 0 (odict.get counts q) + 1))
             l acc))
  <-> In p (odict.keys acc) \/ In p l.
Proof.
  revert acc. induction l as [|q l IH]; intros acc; simpl; [tauto|].
  rewrite IH, odict_keys_set. intuition congruence.
Qed.

Lemma get_stats_keys tokens p :
  In p (odict.keys (get_stats tokens)) <-> adjacent p tokens.
Proof.
  unfold get_stats, adjacent. rewrite get_stats_fold_keys. simpl. tauto.
Qed.

Lemma get_stats_nonempty tokens :
  (2 <= length tokens)%nat -> odict.keys (get_stats tokens) <> [].
Proof.
  destruct tokens as [|x [|y r]]; simpl; try lia. intros _ Hnil.
  assert (Hin : In (x, y) (odict.keys (get_stats (x :: y :: r)))).
  { apply get_stats_keys, adjacent_cons. now left. }
  rewrite Hnil in Hin. destruct Hin.
Qed.

Lemma get_stats_empty tokens :
  (length tokens < 2)%nat -> get_stats tokens = [].
Proof. destruct tokens as [|x [|y r]]; simpl; try reflexivity; lia. Qed.

(** ** [max] and [min] *)

Lemma max_from_In {A} (key : A -> Z) l best :
  In (max_from key best l) (best :: l).
Proof.
  revert best. induction l as [|x l IH]; intros best; simpl; [tauto|].
  destruct (key best <? key x); specialize (IH x) as IHx;
    specialize (IH best); simpl in *; tauto.
Qed.

Lemma min_from_In {A} (key : A -> rank) l best :
  In (min_from key best l) (best :: l).
Proof.
  revert best. induction l as [|x l IH]; intros best; simpl; [tauto|].
  destruct (rank_lt (key x) (key best)); specialize (IH x) as IHx;
    specialize (IH best); simpl in *; tauto.
Qed.

Lemma rank_lt_trans x y z :
  rank_lt x y = false -> rank_lt y z = false -> rank_lt x z = false.
Proof.
  destruct x, y, z; simpl; try congruence.
  rewrite !Z.ltb_ge. lia.
Qed.

Lemma rank_lt_asym x y : rank_lt x y = true -> rank_lt y x = false.
Proof. destruct x, y; simpl; try congruence. rewrite Z.ltb_lt, Z.ltb_ge. lia. Qed.

Lemma rank_lt_irrefl x : rank_lt x x = false.
Proof. destruct x; simpl; [apply Z.ltb_irrefl | reflexivity]. Qed.

(** The element chosen by [min] has a key that no element beats. *)
Lemma min_from_least {A} (key : A -> rank) l best x :
  In x (best :: l) -> rank_lt (key x) (key (min_from key best l)) = false.
Proof.
  revert best x. induction l as [|y l IH]; intros best x Hin; simpl.
  - destruct Hin as [<-|[]]. apply rank_lt_irrefl.
  - destruct (rank_lt (key y) (key best)) eqn:Hlt.
    + destruct Hin as [<-|Hin]; [|now apply IH].
      apply rank_lt_trans with (key y).
      * now apply rank_lt_asym.
      * apply IH. now left.
    + destruct Hin as [<-|[<-|Hin]].
      * apply IH. now left.
      * apply rank_lt_trans with (key best); [assumption|].
        apply IH. now left.
      * apply IH. now right.
Qed.

(** ** [merge_tokens] *)

Lemma merge_tokens_length_le tokens p idx :
  (length (merge_tokens tokens p idx) <= length tokens)%nat.
Proof.
  induction tokens as [| x | x y r IHr IHyr] using list_ind2; simpl; auto.
  case_decide; simpl in *; lia.
Qed.

Lemma merge_tokens_length_lt tokens p idx :
  adjacent p tokens ->
  (length (merge_tokens tokens p idx) < length tokens)%nat.
Proof.
  induction tokens as [| x | x y r IHr IHyr] using list_ind2;
    try (intros []; fail).
  intros Hadj. simpl. case_decide as Hp; simpl.
  - pose proof (merge_tokens_length_le r p idx). lia.
  - apply adjacent_cons in Hadj as [->|Hadj]; [simpl in Hp; tauto|].
    specialize (IHyr Hadj). simpl in IHyr. lia.
Qed.

Lemma merge_tokens_In tokens p idx t :
  In t (merge_tokens tokens p idx) -> t = idx \/ In t tokens.
Proof.
  induction tokens as [| x | x y r IHr IHyr] using list_ind2; simpl; auto.
  case_decide; simpl; intros [<-|Hin]; auto.
  - apply IHr in Hin. tauto.
  - apply IHyr in Hin. simpl in Hin. tauto.
Qed.

(** ** The encoder loop *)

(** What one iteration that continues has done: it merged a pair that is
    present and registered, and no present pair has a lower rank. *)
Lemma encode_body_next m tokens tokens' :
  encode_body m tokens = Ok (Some tokens') ->
  exists p idx,
    adjacent p tokens /\ odict.get m p = Some idx /\
    tokens' = merge_tokens tokens p idx /\
    forall q, adjacent q tokens -> rank_lt (merge_rank m q) (Int idx) = false.
Proof.
  unfold encode_body.
  destruct (odict.keys (get_stats tokens)) as [|x l] eqn:Hk; simpl;
    [discriminate|].
  set (p := min_from (merge_rank m) x l).
  destruct (odict.get m p) as [idx|] eqn:Hg; [|discriminate].
  intros [= <-]. exists p, idx. repeat split; trivial.
  - apply get_stats_keys. rewrite Hk. apply min_from_In.
  - intros q Hq. apply get_stats_keys in Hq. rewrite Hk in Hq.
    pose proof (min_from_least (merge_rank m) l x q Hq) as Hle.
    fold p in Hle. unfold merge_rank at 2 in Hle. now rewrite Hg in Hle.
Qed.

(** What an iteration that leaves the loop has seen: no present pair is
    registered. *)
Lemma encode_body_break m tokens :
  encode_body m tokens = Ok None ->
  forall q, adjacent q tokens -> odict.get m q = None.
Proof.
  unfold encode_body.
  destruct (odict.keys (get_stats tokens)) as [|x l] eqn:Hk; simpl;
    [discriminate|].
  set (p := min_from (merge_rank m) x l).
  destruct (odict.get m p) as [idx|] eqn:Hg; [discriminate|].
  intros _ q Hq. apply get_stats_keys in Hq. rewrite Hk in Hq.
  pose proof (min_from_least (merge_rank m) l x q Hq) as Hle.
  fold p in Hle. unfold merge_rank in Hle. rewrite Hg in Hle.
  destruct (odict.get m q); [discriminate|reflexivity].
Qed.

Lemma encode_body_no_raise m tokens e :
  (2 <= length tokens)%nat -> encode_body m tokens <> Raise e.
Proof.
  intros Hlen. unfold encode_body.
  destruct (odict.keys (get_stats tokens)) as [|x l] eqn:Hk.
  - now apply get_stats_nonempty in Hlen.
  - simpl. destruct (odict.get m _); discriminate.
Qed.

Lemma encode_body_decreases m tokens tokens' :
  encode_body m tokens = Ok (Some tokens') ->
  (length tokens' < length tokens)%nat.
Proof.
  intros (p & idx & Hadj & _ & -> & _)%encode_body_next.
  now apply merge_tokens_length_lt.
Qed.

(** As many iterations as the sequence has elements always suffice, and
    the loop then ends normally. *)
Lemma encode_loop_enough m fuel tokens :
  (length tokens <= fuel)%nat ->
  exists out, encode_loop fuel m tokens = Some (Ok out) /\
              (length out <= length tokens)%nat.
Proof.
  revert tokens. induction fuel as [|fuel IH]; intros tokens Hlen; simpl.
  - destruct (2 <=? Z.of_nat (length tokens)) eqn:Hc; [lia|].
    exists tokens. split; [reflexivity|lia].
  - destruct (2 <=? Z.of_nat (length tokens)) eqn:Hc;
      [|exists tokens; split; [reflexivity|lia]].
    destruct (encode_body m tokens) as [[tokens'|]|e] eqn:Hb.
    + pose proof (encode_body_decreases _ _ _ Hb) as Hlt.
      destruct (IH tokens') as (out & Hout & Hle); [lia|].
      exists out. split; [assumption|lia].
    + exists tokens. split; [reflexivity|lia].
    + exfalso. apply (encode_body_no_raise m tokens e); [lia|assumption].
Qed.

(** Iterations allowed beyond those the loop needs change nothing. *)
Lemma encode_loop_mono m fuel fuel' tokens r :
  encode_loop fuel m tokens = Some r -> (fuel <= fuel')%nat ->
  encode_loop fuel' m tokens = Some r.
Proof.
  revert fuel' tokens. induction fuel as [|fuel IH]; intros fuel' tokens.
  - simpl. destruct (2 <=? Z.of_nat (length tokens)) eqn:Hc; [discriminate|].
    intros <- _. destruct fuel'; simpl; now rewrite Hc.
  - intros Hr Hle. destruct fuel' as [|fuel']; [lia|].
    simpl in *. destruct (2 <=? Z.of_nat (length tokens)); trivial.
    destruct (encode_body m tokens) as [[tokens'|]|e]; trivial.
    apply IH; [assumption|lia].
Qed.

Lemma encode_loop_fuel_irrelevant m fuel tokens :
  (length tokens <= fuel)%nat ->
  encode_loop fuel m tokens = encode_loop (length tokens) m tokens.
Proof.
  intros Hlen.
  destruct (encode_loop_enough m (length tokens) tokens) as (out & Hout & _);
    [lia|].
  rewrite Hout. now apply (encode_loop_mono m (length tokens)).
Qed.

(** The loop reads the merge table only through lookups. *)
Lemma min_from_ext {A} (k1 k2 : A -> rank) l best :
  (forall x, k1 x = k2 x) -> min_from k1 best l = min_from k2 best l.
Proof.
  intros Hk. revert best. induction l as [|x l IH]; intros best; simpl; trivial.
  rewrite !Hk. destruct (rank_lt _ _); apply IH.
Qed.

Lemma encode_body_ext m1 m2 tokens :
  (forall p, odict.get m1 p = odict.get m2 p) ->
  encode_body m1 tokens = encode_body m2 tokens.
Proof.
  intros Hm. unfold encode_body.
  destruct (odict.keys (get_stats tokens)) as [|x l]; simpl; trivial.
  rewrite (min_from_ext (merge_rank m1) (merge_rank m2)).
  - now rewrite Hm.
  - intros q. unfold merge_rank. now rewrite Hm.
Qed.

Lemma encode_loop_ext m1 m2 fuel tokens :
  (forall p, odict.get m1 p = odict.get m2 p) ->
  encode_loop fuel m1 tokens = encode_loop fuel m2 tokens.
Proof.
  intros Hm. revert tokens. induction fuel as [|fuel IH]; intros tokens;
    simpl; trivial.
  rewrite (encode_body_ext m1 m2 tokens Hm).
  destruct (2 <=? _); trivial.
  destruct (encode_body m2 tokens) as [[tokens'|]|e]; trivial.
Qed.

(** C4. [encode] halts on every text and every tokenizer state: the call
    always produces an outcome; an iteration of its loop that does not
    leave the loop returns a strictly shorter sequence; and a number of
    iterations equal to the length of the sequence is always enough for
    the loop to end normally. *)
Theorem encode_terminates (self : Tokenizer) (text : str) :
  (exists r, encode self text = Some r) /\
  (forall tokens tokens',
      encode_body (merges self) tokens = Ok (Some tokens') ->
      (length tokens' < length tokens)%nat) /\
  (forall fuel tokens,
      (length tokens <= fuel)%nat ->
      exists out, encode_loop fuel (merges self) tokens = Some (Ok out)).
Proof.
  split; [|split].
  - unfold encode. destruct (utf8.encode text) as [tokens|e]; [|eauto].
    destruct (encode_loop_enough (merges self) (length tokens) tokens)
      as (out & Hout & _); eauto.
  - intros tokens tokens'. apply encode_body_decreases.
  - intros fuel tokens Hlen.
    destruct (encode_loop_enough (merges self) fuel tokens Hlen)
      as (out & Hout & _); eauto.
Qed.

Lemma encode_terminates_witness :
  let self := mkTokenizer 261 ∅ [((97, 97), 260)] [] in
  (exists r, encode self (py_str "aaab") = Some r) /\
  (length [260; 97; 98] < length [97; 97; 97; 98])%nat /\
  (exists out, encode_loop 4 (merges self) [97; 97; 97; 98] = Some (Ok out)).
Proof.
  intros self.
  destruct (encode_terminates self (py_str "aaab")) as (H1 & H2 & H3).
  split; [exact H1|split].
  - apply (H2 [97; 97; 97; 98] [260; 97; 98]). reflexivity.
  - apply (H3 4%nat [97; 97; 97; 98]). simpl. lia.
Defined.

(** C9. [encode] is a function of the merge table and the text alone: it
    returns no new state, and two tokenizer states whose merge tables
    answer every lookup alike (whatever their vocabularies, target sizes,
    caches or insertion orders) encode every text to the same result.
    In each iteration on a sequence of at least two tokens the loop either
    merges a present pair whose registered id is the lowest among the
    present registered pairs, or stops because no present pair is
    registered; an unregistered pair is never chosen for a merge. *)
Theorem encode_deterministic (tk1 tk2 : Tokenizer) (text : str) :
  (forall p, odict.get (merges tk1) p = odict.get (merges tk2) p) ->
  encode tk1 text = encode tk2 text /\
  forall tokens, (2 <= length tokens)%nat ->
    match encode_body (merges tk1) tokens with
    | Ok (Some tokens') =>
        exists p idx,
          adjacent p tokens /\ odict.get (merges tk1) p = Some idx /\
          tokens' = merge_tokens tokens p idx /\
          forall q idx', adjacent q tokens ->
                         odict.get (merges tk1) q = Some idx' -> idx <= idx'
    | Ok None =>
        forall q, adjacent q tokens -> odict.get (merges tk1) q = None
    | Raise _ => False
    end.
Proof.
  intros Hm. split.
  - unfold encode. destruct (utf8.encode text) as [tokens|e]; trivial.
    now apply encode_loop_ext.
  - intros tokens Hlen.
    destruct (encode_body (merges tk1) tokens) as [[tokens'|]|e] eqn:Hb.
    + destruct (encode_body_next _ _ _ Hb) as (p & idx & Ha & Hg & -> & Hmin).
      exists p, idx. repeat split; trivial.
      intros q idx' Hq Hgq. specialize (Hmin q Hq).
      unfold merge_rank in Hmin. rewrite Hgq in Hmin. simpl in Hmin.
      apply Z.ltb_ge in Hmin. exact Hmin.
    + now apply encode_body_break.
    + now apply encode_body_no_raise in Hb.
Qed.

Lemma encode_deterministic_witness :
  let tk1 := mkTokenizer 262 ∅ [((97, 97), 260); ((260, 98), 261)] [] in
  let tk2 := mkTokenizer 1024 (vocab (init 0))
                         [((260, 98), 261); ((97, 97), 260)] [] in
  encode tk1 (py_str "aaabaaab") = encode tk2 (py_str "aaabaaab").
Proof.
  intros tk1 tk2.
  refine (proj1 (encode_deterministic tk1 tk2 (py_str "aaabaaab") _)).
  intros [a b]. simpl. repeat case_decide; congruence.
Defined.

(** ** How [merge_tokens] changes adjacency *)

Ltac special_count := change (Z.of_nat (length SPECIAL_TOKENS)) with 4 in *.

Ltac no_adjacent :=
  let H := fresh in
  intros H; apply adjacent_short in H; [destruct H | simpl; lia].

Lemma adjacent_tail q y r : adjacent q r -> adjacent q (y :: r).
Proof.
  destruct r as [|z r]; [intros []|]. intros H. apply adjacent_cons. now right.
Qed.

Lemma adjacent_In a b tokens : adjacent (a, b) tokens -> In a tokens /\ In b tokens.
Proof.
  induction tokens as [| x | x y r IHr IHyr] using list_ind2;
    try (intros []; fail).
  intros H. apply adjacent_cons in H as [H|H].
  - injection H as -> ->. simpl. auto.
  - apply IHyr in H. simpl in *. tauto.
Qed.

Lemma merge_tokens_cons2 x y r p idx :
  merge_tokens (x :: y :: r) p idx =
  if decide (x = fst p /\ y = snd p) then idx :: merge_tokens r p idx
  else x :: merge_tokens (y :: r) p idx.
Proof. reflexivity. Qed.

Lemma merge_tokens_head y r p idx z r' :
  merge_tokens (y :: r) p idx = z :: r' -> z = idx \/ z = y.
Proof. destruct r; simpl; [|case_decide]; intros [= <- _]; auto. Qed.

(** A pair of ids other than [idx] that is adjacent after the rewrite was
    adjacent before it, and it is not the pair that was merged. *)
Lemma merge_tokens_adjacent tokens p idx q :
  adjacent q (merge_tokens tokens p idx) ->
  fst q <> idx -> snd q <> idx ->
  adjacent q tokens /\ q <> p.
Proof.
  intros Hadj Hf Hs. revert Hadj.
  induction tokens as [| x | x y r IHr IHyr] using list_ind2;
    try no_adjacent.
  rewrite merge_tokens_cons2. case_decide as Hp.
  - destruct (merge_tokens r p idx) as [|z r'] eqn:Hm; [no_adjacent|].
    intros [->|H]%adjacent_cons; [simpl in Hf; congruence|].
    destruct (IHr H) as [Hr Hne]. split; [|assumption].
    now do 2 apply adjacent_tail.
  - destruct (merge_tokens (y :: r) p idx) as [|z r'] eqn:Hm; [no_adjacent|].
    intros [->|H]%adjacent_cons.
    + apply merge_tokens_head in Hm as [->| ->]; [simpl in Hs; congruence|].
      split; [apply adjacent_cons; now left|].
      intros <-. simpl in Hp. tauto.
    + destruct (IHyr H) as [Hr Hne]. split; [|assumption].
      now apply adjacent_tail.
Qed.

(** ** The merge loop of [train] *)

(** The state of the loop when the next merge id is [n]. *)
Record train_inv (n : Z) (tokens : list Z) (m : merges_t) : Prop := {
  inv_tokens : forall t, In t tokens -> resolved n t;
  inv_values : odict.values m = seqZ 260 (n - 260);
  inv_parts : forall a b idx, In ((a, b), idx) m ->
                              resolved idx a /\ resolved idx b;
  inv_fresh : forall p, In p (odict.keys m) -> ~ adjacent p tokens;
  inv_nodup : NoDup (odict.keys m)
}.

Lemma resolved_mono n n' t : resolved n t -> n <= n' -> resolved n' t.
Proof. unfold resolved. lia. Qed.

Lemma resolved_lt n t : resolved n t -> 260 <= n -> 0 <= t < n.
Proof. unfold resolved. special_count. lia. Qed.

Lemma train_inv_value_lt n tokens m k v :
  train_inv n tokens m -> In (k, v) m -> 260 <= v < n.
Proof.
  intros Hinv Hin.
  assert (Hv : In v (odict.values m)).
  { change v with (snd (k, v)). now apply in_map. }
  rewrite (inv_values _ _ _ Hinv) in Hv.
  apply list_elem_of_In, elem_of_seqZ in Hv. lia.
Qed.

Lemma train_inv_step n tokens m p :
  260 <= n -> train_inv n tokens m -> adjacent p tokens ->
  train_inv (n + 1) (merge_tokens tokens p n) (odict.set m p n).
Proof.
  intros Hn Hinv Hadj.
  assert (Hnew : odict.get m p = None).
  { apply odict_get_None. intros Hk. now apply (inv_fresh _ _ _ Hinv p). }
  rewrite (odict_set_fresh _ _ _ Hnew).
  destruct p as [a b].
  destruct (adjacent_In _ _ _ Hadj) as [Ha Hb].
  apply (inv_tokens _ _ _ Hinv) in Ha, Hb.
  split.
  - intros t [->|Ht]%merge_tokens_In.
    + right. special_count. lia.
    + apply resolved_mono with n; [|lia]. now apply (inv_tokens _ _ _ Hinv).
  - pose proof (inv_values _ _ _ Hinv) as Hv.
    unfold odict.values in *. rewrite map_app, Hv. simpl.
    replace (n + 1 - 260) with ((n - 260) + 1) by lia.
    rewrite seqZ_app by lia. f_equal; [].
    replace (260 + (n - 260)) with n by lia. reflexivity.
  - intros a' b' idx [Hin|[[= -> -> <-]|[]]]%in_app_iff.
    + now apply (inv_parts _ _ _ Hinv).
    + auto.
  - intros q Hq Hadjq. unfold odict.keys in Hq. rewrite map_app in Hq.
    apply in_app_iff in Hq as [Hq|[<-|[]]].
    + apply in_map_iff in Hq as ([[a' b'] idx] & <- & Hin).
      pose proof (train_inv_value_lt _ _ _ _ _ Hinv Hin) as Hidx.
      destruct (inv_parts _ _ _ Hinv _ _ _ Hin) as [Ha' Hb'].
      apply resolved_lt in Ha', Hb'; try lia.
      apply merge_tokens_adjacent in Hadjq as [Hadjq _]; simpl; try lia.
      apply (inv_fresh _ _ _ Hinv (a', b')); [|assumption].
      change (a', b') with (fst ((a', b'), idx)). now apply in_map.
    + apply resolved_lt in Ha, Hb; try lia.
      apply merge_tokens_adjacent in Hadjq as [_ Hne]; simpl in *; try lia.
      congruence.
  - unfold odict.keys. rewrite map_app. simpl.
    apply NoDup_app. split; [apply (inv_nodup _ _ _ Hinv)|]. split.
    + intros q Hq [->|[]%not_elem_of_nil]%elem_of_cons.
      apply odict_get_None in Hnew. apply Hnew. now apply list_elem_of_In.
    + apply NoDup_singleton.
Qed.

Lemma train_loop_cons i ids tokens m :
  train_loop (i :: ids) tokens m =
  match odict.keys (get_stats tokens) with
  | [] => (m, tokens, Some ValueError)
  | x :: l =>
      let p := max_from (fun p => default 0 (odict.get (get_stats tokens) p))
                        x l in
      train_loop ids (merge_tokens tokens p (260 + i)) (odict.set m p (260 + i))
  end.
Proof.
  cbn [train_loop]. destruct (odict.keys (get_stats tokens)); cbn; trivial.
  replace (256 + i + Z.of_nat 4) with (260 + i) by lia. reflexivity.
Qed.

(** Running [k] iterations from iteration index [i]: either all of them
    succeed and the invariant holds [k] ids later, or one of them finds
    fewer than two tokens and raises [ValueError]. *)
Lemma train_loop_inv k : forall i tokens m,
  0 <= i -> train_inv (260 + i) tokens m ->
  match train_loop (seqZ i (Z.of_nat k)) tokens m with
  | (m', tokens', None) => train_inv (260 + i + Z.of_nat k) tokens' m'
  | (m', tokens', Some e) =>
      e = ValueError /\ (length tokens' < 2)%nat /\
      exists j, i <= j < i + Z.of_nat k /\ train_inv (260 + j) tokens' m'
  end.
Proof.
  induction k as [|k IH]; intros i tokens m Hi Hinv.
  - simpl. now replace (260 + i + Z.of_nat 0) with (260 + i) by lia.
  - rewrite seqZ_cons by lia. rewrite train_loop_cons.
    destruct (odict.keys (get_stats tokens)) as [|x l] eqn:Hk.
    + split; [reflexivity|]. split.
      * destruct (le_lt_dec 2 (length tokens)) as [Hge|]; [|assumption].
        now apply get_stats_nonempty in Hge.
      * exists i. split; [lia|assumption].
    + cbv zeta. set (p := max_from _ x l).
      assert (Hadj : adjacent p tokens).
      { apply get_stats_keys. rewrite Hk. apply max_from_In. }
      replace (Z.pred (Z.of_nat (S k))) with (Z.of_nat k) by lia.
      specialize (IH (Z.succ i) (merge_tokens tokens p (260 + i))
                     (odict.set m p (260 + i))).
      destruct (train_loop _ _ _) as [[m' tokens'] [e|]].
      * destruct IH as (-> & Hlen & j & Hj & Hinv'); [lia| |].
        { replace (260 + Z.succ i) with (260 + i + 1) by lia.
          apply train_inv_step; [lia|assumption|assumption]. }
        split; [reflexivity|]. split; [assumption|].
        exists j. split; [lia|assumption].
      * replace (260 + i + Z.of_nat (S k))
          with (260 + Z.succ i + Z.of_nat k) by lia.
        apply IH; [lia|].
        replace (260 + Z.succ i) with (260 + i + 1) by lia.
        apply train_inv_step; [lia|assumption|assumption].
Qed.

(** ** The vocabulary of the constructor *)

Lemma fold_insert_bytes_lookup (l : list Z) (v : gmap Z bytes) (k : Z) :
  fold_left (fun v idx => <[idx := [idx]]> v) l v !! k =
  if decide (elem_of k l) then Some [k] else v !! k.
Proof.
  revert v. induction l as [|x l IH]; intros v; simpl.
  - reflexivity.
  - rewrite IH.
    destruct (decide (elem_of k l)) as [Hl|Hl];
      destruct (decide (elem_of k (x :: l))) as [Hxl|Hxl]; trivial.
    + exfalso. apply Hxl. now right.
    + apply elem_of_cons in Hxl as [->|?]; [apply lookup_insert_eq|tauto].
    + apply lookup_insert_ne. intros ->. apply Hxl. now left.
Qed.

Definition PAD_bytes : bytes := [60; 80; 65; 68; 62].
Definition UNK_bytes : bytes := [60; 85; 78; 75; 62].
Definition BOS_bytes : bytes := [60; 66; 79; 83; 62].
Definition EOS_bytes : bytes := [60; 69; 79; 83; 62].

Lemma init_vocab V :
  vocab (init V) =
  <[3 := EOS_bytes]> (<[2 := BOS_bytes]> (<[1 := UNK_bytes]> (<[0 := PAD_bytes]>
    (fold_left (fun v idx => <[idx := [idx]]> v) (range 256) ∅)))).
Proof. reflexivity. Qed.

Lemma init_vocab_byte V k : 4 <= k < 256 -> vocab (init V) !! k = Some [k].
Proof.
  intros Hk. rewrite init_vocab.
  rewrite !lookup_insert_ne by lia.
  rewrite fold_insert_bytes_lookup. case_decide as Hin; [reflexivity|].
  exfalso. apply Hin. apply elem_of_seqZ. lia.
Qed.

Lemma init_vocab_special V :
  vocab (init V) !! 0 = Some PAD_bytes /\ vocab (init V) !! 1 = Some UNK_bytes /\
  vocab (init V) !! 2 = Some BOS_bytes /\ vocab (init V) !! 3 = Some EOS_bytes.
Proof.
  rewrite init_vocab. split; [|split; [|split]]; vm_compute; reflexivity.
Qed.

Lemma init_vocab_dom V k : is_Some (vocab (init V) !! k) <-> 0 <= k < 256.
Proof.
  split.
  - rewrite init_vocab. intros Hs.
    destruct (decide (0 <= k < 256)) as [|Hout]; [assumption|].
    rewrite !lookup_insert_ne, fold_insert_bytes_lookup in Hs by lia.
    case_decide as Hin.
    + apply elem_of_seqZ in Hin. lia.
    + rewrite lookup_empty in Hs. now destruct Hs.
  - intros Hk. destruct (decide (4 <= k)).
    + rewrite init_vocab_byte by lia. eauto.
    + destruct (init_vocab_special V) as (H0 & H1 & H2 & H3).
      assert (k = 0 \/ k = 1 \/ k = 2 \/ k = 3) as [-> | [-> | [-> | ->]]] by lia;
        eauto.
Qed.

(** ** The vocabulary loop of [train] *)

(** The loop writes only at the ids found in the merge table. *)
Lemma build_vocab_frame items v k :
  ~ In k (odict.values items) -> fst (build_vocab items v) !! k = v !! k.
Proof.
  revert v. induction items as [|[[a b] idx] items IH]; intros v Hk; simpl;
    [reflexivity|].
  simpl in Hk.
  destruct (v !! a) as [va|]; [|reflexivity].
  destruct (v !! b) as [vb|]; [|reflexivity].
  rewrite IH by tauto. apply lookup_insert_ne. tauto.
Qed.

Lemma build_vocab_cons a b idx items (v : gmap Z bytes) :
  build_vocab (((a, b), idx) :: items) v =
  match v !! a, v !! b with
  | Some va, Some vb => build_vocab items (<[idx := va ++ vb]> v)
  | _, _ => (v, Some KeyError)
  end.
Proof. reflexivity. Qed.

(** On a merge table whose ids are consecutive from [lo] and whose pairs
    only use ids resolved before their own, the loop meets no missing
    key and leaves [vocab[idx] = vocab[a] + vocab[b]] for every entry. *)
Lemma build_vocab_ok items : forall (v : gmap Z bytes) lo,
  260 <= lo ->
  odict.values items = seqZ lo (Z.of_nat (length items)) ->
  (forall a b idx, In ((a, b), idx) items -> resolved idx a /\ resolved idx b) ->
  (forall k, resolved lo k -> is_Some (v !! k)) ->
  exists v',
    build_vocab items v = (v', None) /\
    (forall k, k < lo -> v' !! k = v !! k) /\
    (forall k, resolved (lo + Z.of_nat (length items)) k -> is_Some (v' !! k)) /\
    (forall a b idx, In ((a, b), idx) items ->
       exists va vb, v' !! a = Some va /\ v' !! b = Some vb /\
                     v' !! idx = Some (va ++ vb)).
Proof.
  induction items as [|[[a b] idx] items IH]; intros v lo Hlo Hvals Hparts Hdom.
  - exists v. simpl. repeat split; trivial.
    + intros k Hk. apply Hdom. eapply resolved_mono; [exact Hk|lia].
    + intros ? ? ? [].
  - rewrite seqZ_cons in Hvals by (simpl; lia).
    simpl in Hvals. injection Hvals as -> Hvals.
    replace (Z.pred (Z.of_nat (S (length items))))
      with (Z.of_nat (length items)) in Hvals by lia.
    destruct (Hparts a b lo) as [Ha Hb]; [now left|].
    destruct (Hdom a Ha) as [va Hva]. destruct (Hdom b Hb) as [vb Hvb].
    rewrite build_vocab_cons, Hva, Hvb.
    destruct (IH (<[lo := va ++ vb]> v) (Z.succ lo)) as (v' & Hrun & Hlow & Hd & He);
      [lia|assumption| |  |].
    { intros a' b' idx' Hin. apply Hparts. now right. }
    { intros k Hk. destruct (decide (lo = k)) as [->|Hne].
      - rewrite lookup_insert_eq. eauto.
      - rewrite lookup_insert_ne by assumption. apply Hdom.
        unfold resolved in *. special_count. lia. }
    exists v'. split; [assumption|]. split; [|split].
    + intros k Hk. rewrite Hlow by lia. apply lookup_insert_ne. lia.
    + intros k Hk. apply Hd.
      replace (Z.succ lo + Z.of_nat (length items))
        with (lo + Z.of_nat (length (((a, b), lo) :: items)))
        by (simpl length; lia).
      assumption.
    + intros a' b' idx' [[= -> -> ->]|Hin]; [|now apply He].
      apply resolved_lt in Ha, Hb; try lia.
      exists va, vb. rewrite !Hlow by lia.
      rewrite !lookup_insert_ne by lia. rewrite lookup_insert_eq. auto.
Qed.

(** ** Bytes produced by the UTF-8 encoder *)

Lemma utf8_is_scalar_spec c :
  utf8.is_scalar c = true <-> 0 <= c < 55296 \/ 57344 <= c < 1114112.
Proof. unfold utf8.is_scalar. lia. Qed.

Lemma utf8_encode_cp_range c b :
  utf8.is_scalar c = true -> In b (utf8.encode_cp c) -> 0 <= b < 256.
Proof.
  rewrite utf8_is_scalar_spec. intros Hc. unfold utf8.encode_cp.
  repeat match goal with
         | |- context [if ?x <? ?y then _ else _] =>
             destruct (Z.ltb_spec x y)
         end; simpl; intros Hin;
    repeat match goal with
           | H : _ \/ _ |- _ => destruct H
           | H : False |- _ => destruct H
           end; subst b; Z.div_mod_to_equations; lia.
Qed.

Lemma utf8_encode_range s bs b :
  utf8.encode s = Ok bs -> In b bs -> 0 <= b < 256.
Proof.
  unfold utf8.encode, utf8.encode_bytes.
  destruct (forallb utf8.is_scalar s) eqn:Hs; [|discriminate].
  intros [= <-]. rewrite forallb_forall in Hs.
  intros (x & (c & <- & Hc)%in_map_iff & Hb)%in_concat.
  eapply utf8_encode_cp_range; eauto.
Qed.

Section train_facts.
Variable findall : str -> list str.

Lemma join_encoded_range l bs b :
  join_encoded l = Ok bs -> In b bs -> 0 <= b < 256.
Proof.
  revert bs. induction l as [|item l IH]; intros bs; simpl.
  - intros [= <-] [].
  - destruct (utf8.encode item) as [bs1|] eqn:H1; simpl; [|discriminate].
    destruct (join_encoded l) as [bs2|]; simpl; [|discriminate].
    intros [= <-] [Hin|Hin]%in_app_iff.
    + eapply utf8_encode_range; eauto.
    + eapply IH; eauto.
Qed.

Lemma train_inv_init tokens :
  (forall b, In b tokens -> 0 <= b < 256) -> train_inv (260 + 0) tokens [].
Proof.
  intros Hb. split; simpl.
  - intros t Ht. left. auto.
  - reflexivity.
  - intros ? ? ? [].
  - intros ? [].
  - constructor.
Qed.

Lemma range_to_nat n : range n = seqZ 0 (Z.of_nat (Z.to_nat n)).
Proof. unfold range, seqZ. now rewrite Nat2Z.id. Qed.

(** What a call of [train] on a newly constructed tokenizer amounts to. *)
Lemma train_init_unfold V text :
  train findall (init V) text =
  match join_encoded (findall text) with
  | Raise e => (init V, Some e)
  | Ok tokens =>
      match train_loop (range (V - 256 - 4)) tokens [] with
      | (m, _, Some e) => (mkTokenizer V (vocab (init V)) m [], Some e)
      | (m, _, None) =>
          (mkTokenizer V (fst (build_vocab m (vocab (init V)))) m [],
           snd (build_vocab m (vocab (init V))))
      end
  end.
Proof.
  unfold train. destruct (join_encoded (findall text)) as [tokens|e]; trivial.
  change (vocab_size (init V)) with V.
  change (merges (init V)) with (@nil (Z * Z * Z)).
  change (stats_cache (init V)) with (@nil (list Z * list (Z * Z * Z))).
  change (Z.of_nat (length SPECIAL_TOKENS)) with 4.
  destruct (train_loop _ _ _) as [[m ts] [e|]]; trivial.
  now destruct (build_vocab m (vocab (init V))).
Qed.

(** The state reached when [train] returns normally from a newly
    constructed tokenizer. *)
Lemma train_init_ok V text tk :
  train findall (init V) text = (tk, None) ->
  exists tokens tokens' n,
    join_encoded (findall text) = Ok tokens /\
    n = 260 + Z.of_nat (Z.to_nat (V - 256 - 4)) /\
    train_loop (range (V - 256 - 4)) tokens [] = (merges tk, tokens', None) /\
    train_inv n tokens' (merges tk) /\
    vocab_size tk = V /\
    (forall k, k < 260 -> vocab tk !! k = vocab (init V) !! k) /\
    (forall k, resolved n k -> is_Some (vocab tk !! k)) /\
    (forall a b idx, In ((a, b), idx) (merges tk) ->
       exists va vb, vocab tk !! a = Some va /\ vocab tk !! b = Some vb /\
                     vocab tk !! idx = Some (va ++ vb)).
Proof.
  rewrite train_init_unfold.
  destruct (join_encoded (findall text)) as [tokens|e] eqn:Hj; [|discriminate].
  pose proof (train_loop_inv (Z.to_nat (V - 256 - 4)) 0 tokens [] (Z.le_refl 0)
                (train_inv_init tokens (fun b => join_encoded_range _ _ b Hj)))
    as Hloop.
  rewrite <- range_to_nat in Hloop.
  destruct (train_loop _ _ _) as [[m tokens'] [e|]] eqn:Hrun; [discriminate|].
  replace (260 + 0 + Z.of_nat (Z.to_nat (V - 256 - 4)))
    with (260 + Z.of_nat (Z.to_nat (V - 256 - 4))) in Hloop by lia.
  set (n := 260 + Z.of_nat (Z.to_nat (V - 256 - 4))) in *.
  assert (Hlen : Z.of_nat (length m) = n - 260).
  { pose proof (inv_values _ _ _ Hloop) as Hv.
    apply (f_equal (@length Z)) in Hv. unfold odict.values in Hv.
    rewrite length_map, length_seqZ in Hv. lia. }
  destruct (build_vocab_ok m (vocab (init V)) 260) as (v' & Hb & Hlow & Hd & He).
  { lia. }
  { rewrite Hlen. apply (inv_values _ _ _ Hloop). }
  { apply (inv_parts _ _ _ Hloop). }
  { intros k Hk. apply init_vocab_dom. unfold resolved in Hk.
    special_count. lia. }
  rewrite Hb. cbn [fst snd]. intros [= <-]. cbn [merges vocab vocab_size].
  exists tokens, tokens', n.
  split; [reflexivity|]. split; [reflexivity|]. split; [exact Hrun|].
  split; [exact Hloop|]. split; [reflexivity|]. split; [exact Hlow|].
  split; [|exact He].
  intros k Hk. apply Hd. rewrite Hlen.
  now replace (260 + (n - 260)) with n by lia.
Qed.

End train_facts.

(** ** Results on [train] *)

(** C5. When [train] on a newly constructed tokenizer with target size [V]
    returns normally (no iteration met an empty frequency mapping), the
    merge table has exactly [V - 256 - S] entries, none at all when that
    number is not positive: the recorded pairs are pairwise distinct, so no
    iteration overwrote an earlier entry, and the recorded ids are the
    consecutive ids [256 + S], [256 + S + 1], ... in insertion order. *)
Theorem train_merge_count (findall : str -> list str) V text tk :
  train findall (init V) text = (tk, None) ->
  Z.of_nat (length (merges tk))
  = Z.max 0 (V - 256 - Z.of_nat (length SPECIAL_TOKENS)) /\
  NoDup (odict.keys (merges tk)) /\
  odict.values (merges tk)
  = seqZ (256 + Z.of_nat (length SPECIAL_TOKENS))
         (V - 256 - Z.of_nat (length SPECIAL_TOKENS)).
Proof.
  intros (tokens & tokens' & n & _ & Hn & _ & Hinv & _)%train_init_ok.
  special_count. pose proof (inv_values _ _ _ Hinv) as Hv.
  assert (Hseq : seqZ 260 (n - 260) = seqZ (256 + 4) (V - 256 - 4)).
  { subst n. unfold seqZ. f_equal. f_equal. lia. }
  split; [|split].
  - apply (f_equal (@length Z)) in Hv. unfold odict.values in Hv.
    rewrite length_map, length_seqZ in Hv. lia.
  - apply (inv_nodup _ _ _ Hinv).
  - now rewrite Hv.
Qed.

Lemma train_merge_count_witness :
  let tk := fst (train whole_text (init 262) (py_str "aaabaaab")) in
  Z.of_nat (length (merges tk)) = Z.max 0 (262 - 256 - 4) /\
  NoDup (odict.keys (merges tk)) /\
  odict.values (merges tk) = seqZ (256 + 4) (262 - 256 - 4).
Proof.
  intros tk.
  apply (train_merge_count whole_text 262 (py_str "aaabaaab") tk).
  vm_compute. reflexivity.
Defined.

(** C6. When [train] on a newly constructed tokenizer returns normally,
    every pair [(a, b)] of the merge table, with merge id [m], has
    [vocab[m] = vocab[a] + vocab[b]], hence
    [len(vocab[m]) = len(vocab[a]) + len(vocab[b])]; both [a] and [b] are
    ids resolved before [m]: ids of the raw-byte range or merge ids smaller
    than [m]. *)
Theorem train_vocab_consistent (findall : str -> list str) V text tk a b m :
  train findall (init V) text = (tk, None) ->
  odict.get (merges tk) (a, b) = Some m ->
  exists va vb,
    vocab tk !! a = Some va /\ vocab tk !! b = Some vb /\
    vocab tk !! m = Some (va ++ vb) /\
    length (va ++ vb) = (length va + length vb)%nat /\
    resolved m a /\ resolved m b.
Proof.
  intros (tokens & tokens' & n & _ & _ & _ & Hinv & _ & _ & _ & He)%train_init_ok
         Hg%odict_get_In.
  destruct (He a b m Hg) as (va & vb & Ha & Hb & Hm).
  destruct (inv_parts _ _ _ Hinv a b m Hg) as [Hra Hrb].
  exists va, vb. repeat split; trivial. apply length_app.
Qed.

Lemma train_vocab_consistent_witness :
  let tk := fst (train whole_text (init 262) (py_str "aaabaaab")) in
  exists va vb,
    vocab tk !! 260 = Some va /\ vocab tk !! 97 = Some vb /\
    vocab tk !! 261 = Some (va ++ vb) /\
    length (va ++ vb) = (length va + length vb)%nat /\
    resolved 261 260 /\ resolved 261 97.
Proof.
  intros tk.
  apply (train_vocab_consistent whole_text 262 (py_str "aaabaaab") tk 260 97 261);
    vm_compute; reflexivity.
Defined.

(** *** Failure of [train] *)

Lemma train_loop_app ids1 ids2 tokens m :
  train_loop (ids1 ++ ids2) tokens m =
  match train_loop ids1 tokens m with
  | (m1, tokens1, None) => train_loop ids2 tokens1 m1
  | r => r
  end.
Proof.
  revert tokens m. induction ids1 as [|i ids1 IH]; intros tokens m; trivial.
  rewrite <- app_comm_cons, !train_loop_cons.
  destruct (odict.keys (get_stats tokens)); [reflexivity|apply IH].
Qed.

Lemma train_loop_raises ids tokens m m' tokens' e :
  train_loop ids tokens m = (m', tokens', Some e) -> e = ValueError.
Proof.
  revert tokens m. induction ids as [|i ids IH]; intros tokens m.
  - discriminate.
  - rewrite train_loop_cons.
    destruct (odict.keys (get_stats tokens)); [congruence|]. apply IH.
Qed.

Lemma join_encoded_raises l e : join_encoded l = Raise e -> e = UnicodeEncodeError.
Proof.
  induction l as [|item l IH]; simpl; [discriminate|].
  unfold utf8.encode at 1. destruct (forallb utf8.is_scalar item); simpl.
  - destruct (join_encoded l); simpl; [discriminate|]. intros [= <-]. now apply IH.
  - congruence.
Qed.

Lemma build_vocab_raises items (v : gmap Z (list Z)) e :
  snd (build_vocab items v) = Some e -> e = KeyError.
Proof.
  revert v. induction items as [|[[a b] idx] items IH]; intros v.
  - discriminate.
  - rewrite build_vocab_cons.
    destruct (v !! a); [|simpl; congruence].
    destruct (v !! b); [|simpl; congruence]. apply IH.
Qed.

(** The only exceptions [train] can raise, from any state. *)
Lemma train_raises (findall : str -> list str) self text e :
  snd (train findall self text) = Some e ->
  e = UnicodeEncodeError \/ e = ValueError \/ e = KeyError.
Proof.
  unfold train.
  destruct (join_encoded (findall text)) as [tokens|e0] eqn:Hj.
  - destruct (train_loop _ _ _) as [[m ts] [e1|]] eqn:Hl; simpl.
    + intros [= <-]. right. left. eapply train_loop_raises; eauto.
    + destruct (build_vocab m (vocab self)) as [v e'] eqn:Hb. simpl.
      intros ->. right. right. apply (build_vocab_raises m (vocab self)).
      now rewrite Hb.
  - simpl. intros [= <-]. left. eapply join_encoded_raises; eauto.
Qed.

(** C3 (as the code has it). Suppose the corpus supports only [i] merges,
    with [i] smaller than the [V - 256 - S] merges requested: after [i]
    iterations the frequency mapping of the rewritten sequence is empty.
    Then [train] on a newly constructed tokenizer raises the [ValueError]
    of [max] on an empty mapping, not [InsufficientDataError]; the merges
    recorded so far stay in the merge table and the vocabulary is the one
    of the constructor. *)
Theorem train_insufficient_data (findall : str -> list str)
        V text tokens i m tokens' :
  join_encoded (findall text) = Ok tokens ->
  0 <= i < V - 256 - Z.of_nat (length SPECIAL_TOKENS) ->
  train_loop (range i) tokens [] = (m, tokens', None) ->
  get_stats tokens' = [] ->
  snd (train findall (init V) text) = Some ValueError /\
  snd (train findall (init V) text) <> Some InsufficientDataError /\
  merges (fst (train findall (init V) text)) = m /\
  vocab (fst (train findall (init V) text)) = vocab (init V).
Proof.
  special_count. intros Hj Hi Hrun Hempty.
  assert (Hr : train findall (init V) text
               = (mkTokenizer V (vocab (init V)) m [], Some ValueError)).
  { rewrite train_init_unfold, Hj. unfold range in *.
    replace (V - 256 - 4) with (i + (V - 256 - 4 - i)) by lia.
    rewrite seqZ_app, train_loop_app, Hrun by lia.
    rewrite seqZ_cons, train_loop_cons, Hempty by lia. reflexivity. }
  rewrite Hr. cbn [fst snd merges vocab].
  split; [reflexivity|]. split; [discriminate|]. split; reflexivity.
Qed.

Lemma train_insufficient_data_witness :
  snd (train whole_text (init 270) (py_str "aab")) = Some ValueError /\
  snd (train whole_text (init 270) (py_str "aab"))
  <> Some InsufficientDataError /\
  merges (fst (train whole_text (init 270) (py_str "aab")))
  = [((97, 97), 260); ((260, 98), 261)] /\
  vocab (fst (train whole_text (init 270) (py_str "aab"))) = vocab (init 270).
Proof.
  apply (train_insufficient_data whole_text 270 (py_str "aab")
           [97; 97; 98] 2 [((97, 97), 260); ((260, 98), 261)] [261]).
  - reflexivity.
  - simpl. lia.
  - vm_compute. reflexivity.
  - reflexivity.
Defined.

(** The claim as stated fails: with one merge requested and a one-byte
    corpus, [train] does not raise [InsufficientDataError]. *)
Lemma train_insufficient_data_counterexample :
  snd (train whole_text (init 261) (py_str "a")) <> Some InsufficientDataError /\
  snd (train whole_text (init 261) (py_str "a")) = Some ValueError.
Proof. split; [|vm_compute; reflexivity]. vm_compute. discriminate. Qed.

(** A corpus with no more bytes than merges requested cannot support
    them: every successful iteration needs two tokens and removes one. *)
Lemma train_loop_needs_tokens ids tokens m m' tokens' :
  ids <> [] -> train_loop ids tokens m = (m', tokens', None) ->
  (length ids < length tokens)%nat.
Proof.
  revert tokens m. induction ids as [|i ids IH]; intros tokens m Hne;
    [congruence|].
  rewrite train_loop_cons.
  destruct (odict.keys (get_stats tokens)) as [|x l] eqn:Hk; [discriminate|].
  cbv zeta. set (p := max_from _ x l).
  assert (Hadj : adjacent p tokens).
  { apply get_stats_keys. rewrite Hk. apply max_from_In. }
  pose proof (merge_tokens_length_lt tokens p (260 + i) Hadj) as Hlt.
  destruct ids as [|i' ids].
  - intros _. simpl. destruct (le_lt_dec 2 (length tokens)); [lia|].
    now apply adjacent_short in Hadj.
  - intros Hrun. apply IH in Hrun; [|discriminate]. simpl in *. lia.
Qed.

(** X14. When at least one merge is requested and the corpus has no more
    bytes than merges requested, [train] on a new tokenizer raises
    [ValueError]. *)
Lemma train_short_corpus_raises (findall : str -> list str) V text tokens :
  join_encoded (findall text) = Ok tokens ->
  1 <= V - 256 - Z.of_nat (length SPECIAL_TOKENS) ->
  Z.of_nat (length tokens) <= V - 256 - Z.of_nat (length SPECIAL_TOKENS) ->
  snd (train findall (init V) text) = Some ValueError.
Proof.
  special_count. intros Hj Hnum Hlen. rewrite train_init_unfold, Hj.
  destruct (train_loop _ _ _) as [[m ts] [e|]] eqn:Hrun; cbn [snd].
  - f_equal. eapply train_loop_raises; eauto.
  - apply train_loop_needs_tokens in Hrun.
    + unfold range in Hrun. rewrite length_seqZ in Hrun. lia.
    + unfold range. rewrite seqZ_cons by lia. discriminate.
Qed.

(** *** What [train] leaves untouched *)

Lemma odict_values_set {K V} `{EqDecision K} (d : list (K * V)) k v v' :
  In v' (odict.values (odict.set d k v)) -> v' = v \/ In v' (odict.values d).
Proof.
  induction d as [|[k0 v0] d IH]; simpl.
  - intuition congruence.
  - case_decide; simpl; intuition congruence.
Qed.

Lemma train_loop_values ids tokens m v :
  (forall i, In i ids -> 0 <= i) ->
  In v (odict.values (fst (fst (train_loop ids tokens m)))) ->
  260 <= v \/ In v (odict.values m).
Proof.
  revert tokens m. induction ids as [|i ids IH]; intros tokens m Hids.
  - simpl. auto.
  - rewrite train_loop_cons.
    destruct (odict.keys (get_stats tokens)) as [|x l]; [simpl; auto|].
    cbv zeta. intros Hin. apply IH in Hin; [|intros; apply Hids; now right].
    destruct Hin as [?|Hin]; [now left|].
    apply odict_values_set in Hin as [->|?]; [|now right].
    left. specialize (Hids i (or_introl eq_refl)). lia.
Qed.

Lemma range_nonneg n i : In i (range n) -> 0 <= i.
Proof. intros Hin%list_elem_of_In%elem_of_seqZ. lia. Qed.

(** From any state, [train] changes the vocabulary only at ids of the
    merge table it leaves, and adds to that table only ids from
    [256 + S] on. *)
Lemma train_frame (findall : str -> list str) self text :
  (forall k, ~ In k (odict.values (merges (fst (train findall self text)))) ->
             vocab (fst (train findall self text)) !! k = vocab self !! k) /\
  (forall v, In v (odict.values (merges (fst (train findall self text)))) ->
             260 <= v \/ In v (odict.values (merges self))).
Proof.
  unfold train.
  destruct (join_encoded (findall text)) as [tokens|e0]; [|simpl; auto].
  pose proof (fun v => train_loop_values
                         (range (vocab_size self - 256
                                 - Z.of_nat (length SPECIAL_TOKENS)))
                         tokens (merges self) v (range_nonneg _)) as Hvals.
  destruct (train_loop _ _ _) as [[m ts] [e|]]; simpl in Hvals.
  - simpl. auto.
  - pose proof (build_vocab_frame m (vocab self)) as Hf.
    destruct (build_vocab m (vocab self)) as [v' e']. simpl in *. auto.
Qed.

(** The tokenizer states that the constructor and [train] produce. *)
Inductive constructed (findall : str -> list str) : Tokenizer -> Prop :=
| constructed_init V : constructed findall (init V)
| constructed_train self text :
    constructed findall self ->
    constructed findall (fst (train findall self text)).

(** The entries the constructor writes for ids 0 to 255. *)
Definition base_vocab (v : gmap Z (list Z)) : Prop :=
  (forall k, 4 <= k < 256 -> v !! k = Some [k]) /\
  v !! 0 = Some PAD_bytes /\ v !! 1 = Some UNK_bytes /\
  v !! 2 = Some BOS_bytes /\ v !! 3 = Some EOS_bytes.

Lemma constructed_inv findall self :
  constructed findall self ->
  base_vocab (vocab self) /\
  forall v, In v (odict.values (merges self)) -> 260 <= v.
Proof.
  induction 1 as [V|self text Hc [Hbase Hids]].
  - split; [|intros ? []].
    split; [apply init_vocab_byte|apply init_vocab_special].
  - destruct (train_frame findall self text) as [Hf Hv].
    assert (Hids' : forall v,
               In v (odict.values (merges (fst (train findall self text)))) ->
               260 <= v).
    { intros v [?|?]%Hv; auto. }
    split; [|assumption].
    assert (Hlow : forall k, k < 260 ->
               vocab (fst (train findall self text)) !! k = vocab self !! k).
    { intros k Hk. apply Hf. intros Hin%Hids'. lia. }
    destruct Hbase as (Hb & H0 & H1 & H2 & H3).
    split; [|rewrite !Hlow by lia; auto].
    intros k Hk. rewrite Hlow by lia. now apply Hb.
Qed.

(** C10. For every tokenizer produced by the constructor and any number
    of earlier calls of [train], and every corpus, a call of [train]
    (whether it returns or raises) leaves the entries for ids 4 to 255
    equal to the single raw bytes and the entries for ids 0 to 3 equal to
    the special-token byte strings; a vocabulary entry that differs after
    the call is at an id of the merge table, and that id is at least
    [256 + S]. *)
Theorem train_preserves_base_vocab (findall : str -> list str) self text :
  constructed findall self ->
  base_vocab (vocab self) /\
  base_vocab (vocab (fst (train findall self text))) /\
  (forall k, k < 256 + Z.of_nat (length SPECIAL_TOKENS) ->
     vocab (fst (train findall self text)) !! k = vocab self !! k) /\
  (forall k, vocab (fst (train findall self text)) !! k <> vocab self !! k ->
     256 + Z.of_nat (length SPECIAL_TOKENS) <= k /\
     In k (odict.values (merges (fst (train findall self text))))).
Proof.
  intros Hc. special_count.
  destruct (constructed_inv _ _ Hc) as [Hbase _].
  destruct (constructed_inv _ _ (constructed_train findall self text Hc))
    as [Hbase' Hids'].
  destruct (train_frame findall self text) as [Hf _].
  repeat split; try apply Hbase; try apply Hbase'.
  - intros k Hk. apply Hf. intros Hin%Hids'. lia.
  - destruct (in_dec Z.eq_dec k
                (odict.values (merges (fst (train findall self text)))))
      as [Hin|Hout]; [apply Hids' in Hin; lia|].
    now apply Hf in Hout.
  - destruct (in_dec Z.eq_dec k
                (odict.values (merges (fst (train findall self text)))))
      as [Hin|Hout]; [assumption|].
    now apply Hf in Hout.
Qed.

Lemma train_preserves_base_vocab_witness :
  let self := init 262 in
  let self' := fst (train whole_text self (py_str "aaabaaab")) in
  base_vocab (vocab self) /\ base_vocab (vocab self') /\
  (forall k, k < 256 + 4 -> vocab self' !! k = vocab self !! k) /\
  (forall k, vocab self' !! k <> vocab self !! k ->
     256 + 4 <= k /\ In k (odict.values (merges self'))).
Proof.
  intros self self'.
  apply (train_preserves_base_vocab whole_text self (py_str "aaabaaab")).
  apply constructed_init.
Defined.

(** ** The worked scenario: corpus "aaabaaab", target size 261 *)

(** C7. On a new tokenizer with target size 261 (four special tokens, so
    one merge) and the corpus "aaabaaab", which the pre-tokenizer returns
    as one chunk: the byte sequence is [97,97,97,98,97,97,97,98]; the pair
    (97,97) has frequency 4 and every other pair a smaller one; the single
    iteration records (97,97) with merge id 260 and rewrites the sequence
    to [260,97,98,260,97,98]; [train] returns normally with
    [vocab[260]] the two bytes of "aa". *)
Theorem scenario_A_training (findall : str -> list str) :
  findall (py_str "aaabaaab") = [py_str "aaabaaab"] ->
  join_encoded (findall (py_str "aaabaaab"))
  = Ok [97; 97; 97; 98; 97; 97; 97; 98] /\
  odict.get (get_stats [97; 97; 97; 98; 97; 97; 97; 98]) (97, 97) = Some 4 /\
  (forall p c, In (p, c) (get_stats [97; 97; 97; 98; 97; 97; 97; 98]) ->
               p <> (97, 97) -> c < 4) /\
  train_loop (range (261 - 256 - Z.of_nat (length SPECIAL_TOKENS)))
             [97; 97; 97; 98; 97; 97; 97; 98] []
  = ([((97, 97), 260)], [260; 97; 98; 260; 97; 98], None) /\
  snd (train findall (init 261) (py_str "aaabaaab")) = None /\
  merges (fst (train findall (init 261) (py_str "aaabaaab")))
  = [((97, 97), 260)] /\
  vocab (fst (train findall (init 261) (py_str "aaabaaab"))) !! 260
  = Some (utf8.encode_bytes (py_str "aa")).
Proof.
  intros Hf.
  assert (Hj : join_encoded (findall (py_str "aaabaaab"))
               = Ok [97; 97; 97; 98; 97; 97; 97; 98]).
  { rewrite Hf. reflexivity. }
  assert (Hl : train_loop (range (261 - 256 - 4))
                          [97; 97; 97; 98; 97; 97; 97; 98] []
               = ([((97, 97), 260)], [260; 97; 98; 260; 97; 98], None)).
  { vm_compute. reflexivity. }
  special_count. rewrite train_init_unfold, Hj, Hl.
  split; [reflexivity|]. split; [vm_compute; reflexivity|].
  split; [|split; [reflexivity|]].
  - intros p c Hin Hne. vm_compute in Hin.
    destruct Hin as [[= <- <-]|[[= <- <-]|[[= <- <-]|[]]]];
      [congruence|reflexivity|reflexivity].
  - split; [|split]; vm_compute; reflexivity.
Qed.

Lemma scenario_A_training_witness :
  join_encoded (whole_text (py_str "aaabaaab"))
  = Ok [97; 97; 97; 98; 97; 97; 97; 98] /\
  odict.get (get_stats [97; 97; 97; 98; 97; 97; 97; 98]) (97, 97) = Some 4 /\
  (forall p c, In (p, c) (get_stats [97; 97; 97; 98; 97; 97; 97; 98]) ->
               p <> (97, 97) -> c < 4) /\
  train_loop (range (261 - 256 - Z.of_nat (length SPECIAL_TOKENS)))
             [97; 97; 97; 98; 97; 97; 97; 98] []
  = ([((97, 97), 260)], [260; 97; 98; 260; 97; 98], None) /\
  snd (train whole_text (init 261) (py_str "aaabaaab")) = None /\
  merges (fst (train whole_text (init 261) (py_str "aaabaaab")))
  = [((97, 97), 260)] /\
  vocab (fst (train whole_text (init 261) (py_str "aaabaaab"))) !! 260
  = Some (utf8.encode_bytes (py_str "aa")).
Proof. apply (scenario_A_training whole_text). reflexivity. Defined.

(** C8. With the state that scenario A leaves, [encode] of the raw text
    "aaabaaab" (no pre-tokenizer involved) returns
    [260,97,98,260,97,98], the sequence the training rewrite produced. *)
Theorem scenario_C_encode (findall : str -> list str) :
  findall (py_str "aaabaaab") = [py_str "aaabaaab"] ->
  encode (fst (train findall (init 261) (py_str "aaabaaab")))
         (py_str "aaabaaab")
  = Some (Ok [260; 97; 98; 260; 97; 98]) /\
  snd (fst (train_loop (range (261 - 256 - Z.of_nat (length SPECIAL_TOKENS)))
                       [97; 97; 97; 98; 97; 97; 97; 98] []))
  = [260; 97; 98; 260; 97; 98].
Proof.
  intros Hf. split; [|vm_compute; reflexivity].
  assert (Hj : join_encoded (findall (py_str "aaabaaab"))
               = Ok [97; 97; 97; 98; 97; 97; 97; 98]).
  { rewrite Hf. reflexivity. }
  unfold encode. rewrite train_init_unfold, Hj.
  vm_compute. reflexivity.
Qed.

Lemma scenario_C_encode_witness :
  encode (fst (train whole_text (init 261) (py_str "aaabaaab")))
         (py_str "aaabaaab")
  = Some (Ok [260; 97; 98; 260; 97; 98]) /\
  snd (fst (train_loop (range (261 - 256 - Z.of_nat (length SPECIAL_TOKENS)))
                       [97; 97; 97; 98; 97; 97; 97; 98] []))
  = [260; 97; 98; 260; 97; 98].
Proof. apply (scenario_C_encode whole_text). reflexivity. Defined.

(** ** The UTF-8 decoder on encoder output *)

Lemma utf8_in_range_true lo hi b : lo <= b <= hi -> utf8.in_range lo hi b = true.
Proof. unfold utf8.in_range. lia. Qed.

Lemma utf8_in_range_spec lo hi b : utf8.in_range lo hi b = true <-> lo <= b <= hi.
Proof. unfold utf8.in_range. lia. Qed.

Lemma utf8_trail_spec b0 :
  match utf8.trail b0 with
  | Some 0%nat => 0 <= b0 <= 127
  | Some 1%nat => 194 <= b0 <= 223
  | Some 2%nat => 224 <= b0 <= 239
  | Some 3%nat => 240 <= b0 <= 244
  | Some _ => False
  | None => True
  end.
Proof.
  unfold utf8.trail.
  repeat match goal with
         | |- context [utf8.in_range ?lo ?hi ?b] =>
             let H := fresh in
             destruct (utf8.in_range lo hi b) eqn:H;
             [apply utf8_in_range_spec in H|clear H]
         end; trivial.
Qed.

Ltac utf8_trail_cases :=
  unfold utf8.trail, utf8.in_range; intros;
  repeat match goal with
         | |- context [?x <=? ?y] => destruct (Z.leb_spec x y); try lia
         end; reflexivity.

Lemma utf8_trail_1 b0 : 0 <= b0 <= 127 -> utf8.trail b0 = Some 0%nat.
Proof. utf8_trail_cases. Qed.

Lemma utf8_trail_2 b0 : 194 <= b0 <= 223 -> utf8.trail b0 = Some 1%nat.
Proof. utf8_trail_cases. Qed.

Lemma utf8_trail_3 b0 : 224 <= b0 <= 239 -> utf8.trail b0 = Some 2%nat.
Proof. utf8_trail_cases. Qed.

Lemma utf8_trail_4 b0 : 240 <= b0 <= 244 -> utf8.trail b0 = Some 3%nat.
Proof. utf8_trail_cases. Qed.

Lemma utf8_second_true b0 b1 :
  128 <= b1 <= 191 -> (b0 = 224 -> 160 <= b1) -> (b0 = 240 -> 144 <= b1) ->
  (b0 = 237 -> b1 <= 159) -> (b0 = 244 -> b1 <= 143) ->
  utf8.in_range (utf8.second_lo b0) (utf8.second_hi b0) b1 = true.
Proof.
  intros. apply utf8_in_range_true. unfold utf8.second_lo, utf8.second_hi.
  repeat match goal with
         | |- context [?x =? ?y] => destruct (Z.eqb_spec x y)
         end; lia.
Qed.

(** Decoding the encoding of a scalar value yields it back and consumes
    exactly its bytes. *)
Lemma utf8_step_encode_cp c rest :
  utf8.is_scalar c = true ->
  exists b0 bs, utf8.encode_cp c = b0 :: bs /\
                utf8.step b0 (bs ++ rest) = (c, rest).
Proof.
  rewrite utf8_is_scalar_spec. intros Hc. unfold utf8.encode_cp.
  destruct (Z.ltb_spec c 128); [|destruct (Z.ltb_spec c 2048);
                                  [|destruct (Z.ltb_spec c 65536)]].
  - exists c, []. split; [reflexivity|]. unfold utf8.step.
    rewrite utf8_trail_1 by lia.
    reflexivity.
  - eexists _, _. split; [reflexivity|]. unfold utf8.step.
    rewrite utf8_trail_2 by (Z.div_mod_to_equations; lia).
    simpl app. unfold utf8.cont.
    rewrite utf8_in_range_true by (Z.div_mod_to_equations; lia).
    f_equal. Z.div_mod_to_equations. lia.
  - eexists _, _. split; [reflexivity|]. unfold utf8.step.
    rewrite utf8_trail_3 by (Z.div_mod_to_equations; lia).
    simpl app. unfold utf8.cont.
    rewrite utf8_second_true by (intros; Z.div_mod_to_equations; lia).
    rewrite utf8_in_range_true by (Z.div_mod_to_equations; lia).
    f_equal. Z.div_mod_to_equations. lia.
  - eexists _, _. split; [reflexivity|]. unfold utf8.step.
    rewrite utf8_trail_4 by (Z.div_mod_to_equations; lia).
    simpl app. unfold utf8.cont.
    rewrite utf8_second_true by (intros; Z.div_mod_to_equations; lia).
    rewrite !utf8_in_range_true by (Z.div_mod_to_equations; lia).
    f_equal. Z.div_mod_to_equations. lia.
Qed.

Lemma utf8_decode_fuel_encode s : forall fuel,
  forallb utf8.is_scalar s = true ->
  (length (utf8.encode_bytes s) <= fuel)%nat ->
  utf8.decode_fuel fuel (utf8.encode_bytes s) = s.
Proof.
  induction s as [|c s IH]; intros fuel Hs Hlen.
  - destruct fuel; reflexivity.
  - simpl in Hs. apply andb_prop in Hs as [Hc Hs].
    destruct (utf8_step_encode_cp c (utf8.encode_bytes s) Hc)
      as (b0 & bs & Hb & Hstep).
    unfold utf8.encode_bytes in *. simpl concat in *.
    rewrite Hb in *. simpl in Hlen. rewrite <- app_comm_cons.
    destruct fuel as [|fuel]; [lia|]. simpl. rewrite Hstep.
    f_equal. apply IH; [assumption|].
    rewrite length_app in Hlen. lia.
Qed.

(** Strict encoding followed by lossy decoding is the identity. *)
Lemma utf8_round_trip s bs :
  utf8.encode s = Ok bs -> utf8.decode_replace bs = s.
Proof.
  unfold utf8.encode.
  destruct (forallb utf8.is_scalar s) eqn:Hs; [|discriminate].
  intros [= <-]. unfold utf8.decode_replace.
  now apply utf8_decode_fuel_encode.
Qed.

(** The decoder never stops early, and it only produces scalar values. *)
Lemma utf8_step_length b0 rest :
  (length (snd (utf8.step b0 rest)) <= length rest)%nat.
Proof.
  unfold utf8.step.
  destruct (utf8.trail b0) as [[|[|[|n]]]|]; simpl; try lia;
    repeat match goal with
           | |- context [match ?l with [] => _ | _ :: _ => _ end] =>
               destruct l; simpl; try lia
           | |- context [if ?c then _ else _] => destruct c; simpl; try lia
           end.
Qed.

Lemma utf8_decode_fuel_any fuel : forall fuel' bs,
  (length bs <= fuel)%nat -> (length bs <= fuel')%nat ->
  utf8.decode_fuel fuel bs = utf8.decode_fuel fuel' bs.
Proof.
  induction fuel as [|fuel IH]; intros fuel' bs Hlen Hlen'.
  - destruct bs; [now destruct fuel'|simpl in Hlen; lia].
  - destruct bs as [|b0 rest]; [now destruct fuel'|].
    destruct fuel' as [|fuel']; [simpl in Hlen'; lia|]. simpl in *.
    pose proof (utf8_step_length b0 rest) as Hs.
    destruct (utf8.step b0 rest) as [c rest']. simpl in Hs. f_equal.
    apply IH; lia.
Qed.

Lemma utf8_decode_fuel_enough fuel bs :
  (length bs <= fuel)%nat ->
  utf8.decode_fuel fuel bs = utf8.decode_replace bs.
Proof. intros. unfold utf8.decode_replace. now apply utf8_decode_fuel_any. Qed.

Lemma utf8_decode_replace_cons b0 rest :
  utf8.decode_replace (b0 :: rest) =
  fst (utf8.step b0 rest) :: utf8.decode_replace (snd (utf8.step b0 rest)).
Proof.
  unfold utf8.decode_replace at 1. simpl.
  pose proof (utf8_step_length b0 rest) as Hs.
  destruct (utf8.step b0 rest) as [c rest']. simpl in *. f_equal.
  now apply utf8_decode_fuel_enough.
Qed.

Lemma utf8_step_scalar b0 rest : utf8.is_scalar (fst (utf8.step b0 rest)) = true.
Proof.
  unfold utf8.step. pose proof (utf8_trail_spec b0) as Ht.
  destruct (utf8.trail b0) as [[|[|[|n]]]|]; try reflexivity; try tauto.
  - apply utf8_is_scalar_spec. simpl. lia.
  - destruct rest as [|b1 r1]; [reflexivity|].
    unfold utf8.cont. destruct (utf8.in_range 128 191 b1) eqn:H1;
      [|reflexivity].
    apply utf8_in_range_spec in H1. apply utf8_is_scalar_spec. simpl. lia.
  - destruct rest as [|b1 r1]; [reflexivity|].
    destruct (utf8.in_range _ _ b1) eqn:H1; [|reflexivity].
    destruct r1 as [|b2 r2]; [reflexivity|].
    unfold utf8.cont. destruct (utf8.in_range 128 191 b2) eqn:H2;
      [|reflexivity].
    apply utf8_in_range_spec in H1, H2. apply utf8_is_scalar_spec. simpl.
    unfold utf8.second_lo, utf8.second_hi in H1.
    repeat match goal with
           | H : context [?x =? ?y] |- _ => destruct (Z.eqb_spec x y)
           end; lia.
  - destruct n as [|n]; [|destruct Ht].
    destruct rest as [|b1 r1]; [reflexivity|].
    destruct (utf8.in_range _ _ b1) eqn:H1; [|reflexivity].
    destruct r1 as [|b2 r2]; [reflexivity|].
    unfold utf8.cont. destruct (utf8.in_range 128 191 b2) eqn:H2;
      [|reflexivity].
    destruct r2 as [|b3 r3]; [reflexivity|].
    destruct (utf8.in_range 128 191 b3) eqn:H3; [|reflexivity].
    apply utf8_in_range_spec in H1, H2, H3. apply utf8_is_scalar_spec. simpl.
    unfold utf8.second_lo, utf8.second_hi in H1.
    repeat match goal with
           | H : context [?x =? ?y] |- _ => destruct (Z.eqb_spec x y)
           end; lia.
Qed.

Lemma utf8_decode_replace_scalar bs c :
  In c (utf8.decode_replace bs) -> utf8.is_scalar c = true.
Proof.
  remember (length bs) as n eqn:Hn. revert bs Hn.
  induction n as [n IH] using lt_wf_ind. intros [|b0 rest] Hn; [intros []|].
  rewrite utf8_decode_replace_cons. intros [<-|Hin].
  - apply utf8_step_scalar.
  - pose proof (utf8_step_length b0 rest).
    eapply (IH (length (snd (utf8.step b0 rest)))); eauto. simpl in Hn. lia.
Qed.

(** A byte that cannot start a sequence is replaced, and decoding goes on
    with the next byte. *)
Lemma utf8_decode_replace_invalid b0 rest :
  utf8.trail b0 = None ->
  utf8.decode_replace (b0 :: rest)
  = utf8.replacement :: utf8.decode_replace rest.
Proof.
  intros Ht. rewrite utf8_decode_replace_cons. unfold utf8.step.
  now rewrite Ht.
Qed.

(** ** [decode] *)

Lemma is_special_spec t : is_special t = true <-> 0 <= t <= 3.
Proof. unfold is_special. simpl. lia. Qed.

Lemma lookup_all_ok (v : gmap Z (list Z)) ts :
  (forall t, In t ts -> is_Some (v !! t)) ->
  exists chunks, lookup_all v ts = Ok chunks /\
                 Forall2 (fun t bs => v !! t = Some bs) ts chunks.
Proof.
  induction ts as [|t ts IH]; intros Hall.
  - exists []. split; [reflexivity|constructor].
  - destruct (Hall t (or_introl eq_refl)) as [bs Hbs].
    destruct IH as (chunks & Hl & Hf); [intros; apply Hall; now right|].
    exists (bs :: chunks). simpl. rewrite Hbs, Hl. split; [reflexivity|].
    now constructor.
Qed.

Lemma lookup_all_missing (v : gmap Z (list Z)) ts t :
  In t ts -> v !! t = None -> lookup_all v ts = Raise KeyError.
Proof.
  induction ts as [|t0 ts IH]; intros Hin Hnone; [destruct Hin|].
  simpl. destruct (v !! t0) as [bs|] eqn:Hbs; [|reflexivity].
  destruct Hin as [->|Hin]; [congruence|].
  now rewrite IH.
Qed.

Lemma squeeze_vector tokens :
  length tokens <> 1%nat -> squeeze (Vector tokens) = Vector tokens.
Proof. destruct tokens as [|? [|? ?]]; simpl; congruence. Qed.

(** C2 (as the code has it). For an id sequence of any length other than
    one: the ids 0 to 3 are dropped wherever they occur and the others are
    kept in order; when each id that is kept has a vocabulary entry,
    [decode] returns the lossy UTF-8 decoding of the concatenation of
    those entries, in order; when one of them has no entry, [decode]
    raises [KeyError].  The lossy decoding itself is total: it produces
    only Unicode scalar values, and a byte that cannot start a sequence
    becomes U+FFFD. *)
Theorem decode_on_known_ids (self : Tokenizer) (tokens : list Z) :
  length tokens <> 1%nat ->
  (forall t, In t (List.filter (fun t => negb (is_special t)) tokens)
             <-> In t tokens /\ ~ 0 <= t <= 3) /\
  ((forall t, In t (List.filter (fun t => negb (is_special t)) tokens) ->
              is_Some (vocab self !! t)) ->
   exists chunks,
     Forall2 (fun t bs => vocab self !! t = Some bs)
             (List.filter (fun t => negb (is_special t)) tokens) chunks /\
     decode self (Vector tokens) = Ok (utf8.decode_replace (concat chunks))) /\
  ((exists t, In t (List.filter (fun t => negb (is_special t)) tokens) /\
              vocab self !! t = None) ->
   decode self (Vector tokens) = Raise KeyError) /\
  (forall bs c, In c (utf8.decode_replace bs) -> utf8.is_scalar c = true) /\
  (forall b0 rest, utf8.trail b0 = None ->
     utf8.decode_replace (b0 :: rest)
     = utf8.replacement :: utf8.decode_replace rest).
Proof.
  intros Hlen. split; [|split; [|split; [|split]]].
  - intros t. rewrite filter_In, negb_true_iff.
    rewrite <- is_special_spec. destruct (is_special t); intuition congruence.
  - intros Hall. destruct (lookup_all_ok _ _ Hall) as (chunks & Hl & Hf).
    exists chunks. split; [assumption|].
    unfold decode. rewrite squeeze_vector by assumption. simpl.
    now rewrite Hl.
  - intros (t & Hin & Hnone). unfold decode.
    rewrite squeeze_vector by assumption. simpl.
    now rewrite (lookup_all_missing _ _ t Hin Hnone).
  - apply utf8_decode_replace_scalar.
  - apply utf8_decode_replace_invalid.
Qed.

Lemma decode_on_known_ids_witness :
  let self := init 1024 in
  let tokens := [2; 104; 255; 105; 3] in
  (forall t, In t (List.filter (fun t => negb (is_special t)) tokens)
             <-> In t tokens /\ ~ 0 <= t <= 3) /\
  ((forall t, In t (List.filter (fun t => negb (is_special t)) tokens) ->
              is_Some (vocab self !! t)) ->
   exists chunks,
     Forall2 (fun t bs => vocab self !! t = Some bs)
             (List.filter (fun t => negb (is_special t)) tokens) chunks /\
     decode self (Vector tokens) = Ok (utf8.decode_replace (concat chunks))) /\
  ((exists t, In t (List.filter (fun t => negb (is_special t)) tokens) /\
              vocab self !! t = None) ->
   decode self (Vector tokens) = Raise KeyError) /\
  (forall bs c, In c (utf8.decode_replace bs) -> utf8.is_scalar c = true) /\
  (forall b0 rest, utf8.trail b0 = None ->
     utf8.decode_replace (b0 :: rest)
     = utf8.replacement :: utf8.decode_replace rest).
Proof.
  intros self tokens.
  apply (decode_on_known_ids self tokens). subst tokens.
  cbn [length]. lia.
Defined.

(** What [decode] returns on that input: the special ids 2 and 3 are
    dropped and the lone byte 255 becomes U+FFFD. *)
Lemma decode_example :
  decode (init 1024) (Vector [2; 104; 255; 105; 3]) = Ok [104; 65533; 105].
Proof. vm_compute. reflexivity. Qed.

(** The claim as stated fails: an id without vocabulary entry makes
    [decode] raise. *)
Lemma decode_on_known_ids_counterexample :
  decode (init 1024) (Vector [300; 301]) = Raise KeyError /\
  ~ exists s, decode (init 1024) (Vector [300; 301]) = Ok s.
Proof.
  assert (H : decode (init 1024) (Vector [300; 301]) = Raise KeyError)
    by (vm_compute; reflexivity).
  split; [exact H|]. intros [s Hs]. congruence.
Qed.

(** ** Round trip through [encode] and [decode] *)

(** Replacing a pair by an id whose entry is the concatenation of the
    pair's entries does not change the bytes a sequence stands for. *)
Lemma lookup_all_merge_tokens (v : gmap Z (list Z)) a b idx va vb tokens chunks :
  v !! a = Some va -> v !! b = Some vb -> v !! idx = Some (va ++ vb) ->
  lookup_all v tokens = Ok chunks ->
  exists chunks', lookup_all v (merge_tokens tokens (a, b) idx) = Ok chunks' /\
                  concat chunks' = concat chunks.
Proof.
  intros Ha Hb Hidx. revert chunks.
  induction tokens as [| x | x y r IHr IHyr] using list_ind2; intros chunks.
  - intros [= <-]. exists []. auto.
  - simpl. intros H. eauto.
  - rewrite merge_tokens_cons2. case_decide as Hp.
    + simpl in Hp. destruct Hp as [-> ->]. simpl. rewrite Ha, Hb.
      destruct (lookup_all v r) as [cr|] eqn:Hr; simpl; [|discriminate].
      intros [= <-]. destruct (IHr cr eq_refl) as (cr' & Hl & Hc).
      exists ((va ++ vb) :: cr'). rewrite Hidx, Hl. simpl.
      split; [reflexivity|]. rewrite Hc. now rewrite app_assoc.
    + change (lookup_all v (x :: y :: r))
        with (match v !! x with
              | None => Raise KeyError
              | Some bs => bind (lookup_all v (y :: r))
                                (fun rest => Ok (bs :: rest))
              end).
      destruct (v !! x) as [vx|] eqn:Hx; [|discriminate].
      destruct (lookup_all v (y :: r)) as [cr|] eqn:Hr; [|discriminate].
      intros [= <-]. destruct (IHyr cr eq_refl) as (cr' & Hl & Hc).
      exists (vx :: cr').
      change (lookup_all v (x :: merge_tokens (y :: r) (a, b) idx))
        with (match v !! x with
              | None => Raise KeyError
              | Some bs => bind (lookup_all v (merge_tokens (y :: r) (a, b) idx))
                                (fun rest => Ok (bs :: rest))
              end).
      rewrite Hx, Hl. simpl. split; [reflexivity|]. now rewrite Hc.
Qed.

(** A property kept by every continuing iteration holds of the result. *)
Lemma encode_loop_invariant (P : list Z -> Prop) m :
  (forall tokens tokens',
      P tokens -> encode_body m tokens = Ok (Some tokens') -> P tokens') ->
  forall fuel tokens out,
    P tokens -> encode_loop fuel m tokens = Some (Ok out) -> P out.
Proof.
  intros Hstep. induction fuel as [|fuel IH]; intros tokens out HP; simpl.
  - destruct (2 <=? _); [discriminate|]. now intros [= <-].
  - destruct (2 <=? _); [|now intros [= <-]].
    destruct (encode_body m tokens) as [[tokens'|]|e] eqn:Hb.
    + apply IH. eapply Hstep; eauto.
    + now intros [= <-].
    + discriminate.
Qed.

Lemma filter_keeps_all {A} (f : A -> bool) l :
  (forall x, In x l -> f x = true) -> List.filter f l = l.
Proof.
  induction l as [|x l IH]; intros Hall; simpl; [reflexivity|].
  rewrite (Hall x (or_introl eq_refl)). f_equal. apply IH.
  intros; apply Hall; now right.
Qed.

Lemma lookup_all_bytes (v : gmap Z (list Z)) bs :
  (forall b, In b bs -> v !! b = Some [b]) ->
  lookup_all v bs = Ok (map (fun b => [b]) bs) /\
  concat (map (fun b => [b]) bs) = bs.
Proof.
  induction bs as [|b bs IH]; intros Hall; [auto|].
  destruct IH as [Hl Hc]; [intros; apply Hall; now right|].
  simpl. rewrite (Hall b (or_introl eq_refl)), Hl, Hc. auto.
Qed.

(** X18. The round trip on a tokenizer trained from new.  For a text whose
    UTF-8 bytes avoid the ids 0 to 3, [encode] returns a sequence [out];
    [decode] gives the text back when [out] does not have exactly one
    element, and raises [TypeError] when it has. *)
Lemma round_trip_except_single_token (findall : str -> list str)
      V corpus tk text bs :
  train findall (init V) corpus = (tk, None) ->
  utf8.encode text = Ok bs ->
  (forall b, In b bs -> ~ 0 <= b <= 3) ->
  exists out,
    encode tk text = Some (Ok out) /\
    (length out <> 1%nat -> decode tk (Vector out) = Ok text) /\
    (length out = 1%nat -> decode tk (Vector out) = Raise TypeError).
Proof.
  intros (ctokens & ctokens' & n & _ & _ & _ & Hinv & _ & Hlow & _ & He)
           %train_init_ok Henc Hbs.
  set (P := fun ts : list Z =>
              (forall t, In t ts -> is_special t = false) /\
              exists chunks, lookup_all (vocab tk) ts = Ok chunks /\
                             concat chunks = bs).
  assert (Hstep : forall tokens tokens',
             P tokens -> encode_body (merges tk) tokens = Ok (Some tokens') ->
             P tokens').
  { intros tokens tokens' [Hns (chunks & Hl & Hc)]
           ([a b] & idx & _ & Hg%odict_get_In & -> & _)%encode_body_next.
    destruct (He a b idx Hg) as (va & vb & Ha & Hb & Hidx).
    pose proof (train_inv_value_lt _ _ _ _ _ Hinv Hg) as Hi.
    split.
    - intros t [->|Ht]%merge_tokens_In; [|now apply Hns].
      destruct (is_special idx) eqn:Hsp; [|reflexivity].
      apply is_special_spec in Hsp. lia.
    - destruct (lookup_all_merge_tokens _ _ _ _ _ _ _ _ Ha Hb Hidx Hl)
        as (chunks' & Hl' & Hc').
      exists chunks'. split; [assumption|congruence]. }
  assert (HP0 : P bs).
  { split.
    - intros t Ht. destruct (is_special t) eqn:Hsp; [|reflexivity].
      apply is_special_spec in Hsp. now apply Hbs in Ht.
    - destruct (lookup_all_bytes (vocab tk) bs) as [Hl Hc].
      + intros b Hb. pose proof (utf8_encode_range _ _ _ Henc Hb).
        specialize (Hbs b Hb). rewrite Hlow by lia.
        apply init_vocab_byte. lia.
      + eauto. }
  destruct (encode_loop_enough (merges tk) (length bs) bs (le_n _))
    as (out & Hout & _).
  exists out. unfold encode. rewrite Henc. split; [assumption|].
  destruct (encode_loop_invariant P (merges tk) Hstep _ _ _ HP0 Hout)
    as [Hns (chunks & Hl & Hc)].
  split.
  - intros Hlen. unfold decode. rewrite squeeze_vector by assumption. simpl.
    rewrite filter_keeps_all by (intros x Hx; now rewrite (Hns x Hx)).
    rewrite Hl. simpl. rewrite Hc. f_equal. now apply utf8_round_trip.
  - destruct out as [|t [|? ?]]; try discriminate. reflexivity.
Qed.

(** C1 (failing input). Train a new tokenizer with target size 260 on the
    empty corpus; the one-character text "a" has the single byte 97, which
    is no special-token id.  [encode] returns the one-element sequence
    [97], and [decode] of that sequence raises [TypeError] where the round
    trip would return "a": [squeeze()] turns the one-element tensor into a
    0-d tensor, which cannot be iterated. *)
Theorem round_trip_single_token_fails :
  snd (train whole_text (init 260) (py_str "")) = None /\
  utf8.encode (py_str "a") = Ok [97] /\
  encode (fst (train whole_text (init 260) (py_str ""))) (py_str "a")
  = Some (Ok [97]) /\
  decode (fst (train whole_text (init 260) (py_str ""))) (Vector [97])
  = Raise TypeError /\
  decode (fst (train whole_text (init 260) (py_str ""))) (Vector [97])
  <> Ok (py_str "a").
Proof.
  repeat split; try (vm_compute; reflexivity). vm_compute. discriminate.
Qed.

(** * Further properties of the tokenizer *)

(** ** [get_stats] counts adjacent pairs *)

(** Number of occurrences of [p] in a list of pairs. *)
Fixpoint count_pair (p : pair) (l : list pair) : Z :=
  match l with
  | [] => 0
  | q :: r => (if decide (q = p) then 1 else 0) + count_pair p r
  end.

Lemma count_pair_nonneg p l : 0 <= count_pair p l.
Proof. induction l as [|q l IH]; simpl; [lia|]. case_decide; lia. Qed.

Lemma count_pair_pos p l : 0 < count_pair p l <-> In p l.
Proof.
  induction l as [|q l IH]; simpl; [lia|].
  pose proof (count_pair_nonneg p l).
  case_decide; [subst; split; [auto|lia]|].
  rewrite Z.add_0_l, IH. intuition congruence.
Qed.

Lemma get_stats_fold_get (l : list pair) : forall (acc : list (pair * Z)) p,
  odict.get
    (fold_left
       (fun counts q => odict.set counts q (default 0 (odict.get counts q) + 1))
       l acc) p
  = if decide (count_pair p l = 0) then odict.get acc p
    else Some (default 0 (odict.get acc p) + count_pair p l).
Proof.
  induction l as [|q l IH]; intros acc p; [reflexivity|].
  cbn [fold_left count_pair]. rewrite IH.
  pose proof (count_pair_nonneg p l).
  destruct (decide (q = p)) as [->|Hne].
  - rewrite odict_get_set_eq. cbn [default].
    destruct (decide (count_pair p l = 0)) as [H0|H0];
      destruct (decide (1 + count_pair p l = 0)); try lia.
    + unfold id. f_equal; lia.
    + unfold id. f_equal; lia.
  - rewrite odict_get_set_ne by congruence.
    destruct (decide (count_pair p l = 0));
      destruct (decide (0 + count_pair p l = 0)); try lia; reflexivity.
Qed.

Lemma get_stats_fold_nodup (l : list pair) : forall (acc : list (pair * Z)),
  NoDup (odict.keys acc) ->
  NoDup (odict.keys
           (fold_left
              (fun counts q =>
                 odict.set counts q (default 0 (odict.get counts q) + 1))
              l acc)).
Proof.
  induction l as [|q l IH]; intros acc Hnd; [assumption|].
  cbn [fold_left]. apply IH.
  destruct (odict.get acc q) as [c|] eqn:Hg.
  - assert (Hk : odict.keys (odict.set acc q (default 0 (Some c) + 1))
                 = odict.keys acc); [|now rewrite Hk].
    clear -Hg. induction acc as [|[k v] acc IHacc]; [discriminate|].
    simpl in *. case_decide; [reflexivity|]. simpl. f_equal. now apply IHacc.
  - rewrite (odict_set_fresh _ _ _ Hg). unfold odict.keys.
    rewrite map_app. apply NoDup_app. split; [assumption|]. split.
    + intros k Hk [->|[]%not_elem_of_nil]%elem_of_cons.
      apply odict_get_None in Hg. apply Hg. now apply list_elem_of_In.
    + apply NoDup_singleton.
Qed.

(** X1. [get_stats] maps every pair that occurs among the adjacent pairs
    of the sequence to its number of occurrences, has no entry for any
    other pair, and has no key twice. *)
Theorem get_stats_counts (tokens : list Z) (p : pair) :
  odict.get (get_stats tokens) p
  = (if decide (count_pair p (zip tokens (tail tokens)) = 0) then None
     else Some (count_pair p (zip tokens (tail tokens)))) /\
  (odict.get (get_stats tokens) p = None <-> ~ adjacent p tokens) /\
  NoDup (odict.keys (get_stats tokens)).
Proof.
  unfold get_stats. split; [|split].
  - rewrite get_stats_fold_get. simpl. case_decide; [reflexivity|].
    f_equal; lia.
  - rewrite odict_get_None, get_stats_fold_keys. simpl. unfold adjacent. tauto.
  - apply get_stats_fold_nodup. constructor.
Qed.

(** ** [merge_tokens] *)

(** X2. After the rewrite no occurrence of the merged pair is left,
    provided the new id is neither of its two components. *)
Theorem merge_tokens_removes_pair (tokens : list Z) (a b idx : Z) :
  a <> idx -> b <> idx -> ~ adjacent (a, b) (merge_tokens tokens (a, b) idx).
Proof.
  intros Ha Hb Hadj.
  apply merge_tokens_adjacent in Hadj as [_ Hne]; simpl; congruence.
Qed.

Lemma merge_tokens_removes_pair_witness :
  merge_tokens [97; 97; 97; 97; 97] (97, 97) 260 = [260; 260; 97] /\
  ~ adjacent (97, 97) (merge_tokens [97; 97; 97; 97; 97] (97, 97) 260).
Proof. split; [reflexivity|]. apply merge_tokens_removes_pair; lia. Defined.

(** [expand_id idx a b] undoes a merge: every [idx] becomes [a, b]. *)
Definition expand_id (idx a b : Z) (tokens : list Z) : list Z :=
  flat_map (fun t => if decide (t = idx) then [a; b] else [t]) tokens.

(** X3. When the new id does not occur in the sequence, the rewrite loses
    nothing: putting the pair back for every occurrence of the new id
    gives the original sequence, and the sequence got shorter by exactly
    the number of occurrences of the new id. *)
Theorem merge_tokens_inverse (tokens : list Z) (a b idx : Z) :
  ~ In idx tokens ->
  expand_id idx a b (merge_tokens tokens (a, b) idx) = tokens /\
  length tokens
  = (length (merge_tokens tokens (a, b) idx)
     + length (List.filter (Z.eqb idx) (merge_tokens tokens (a, b) idx)))%nat.
Proof.
  unfold expand_id.
  induction tokens as [| x | x y r IHr IHyr] using list_ind2; intros Hidx.
  - auto.
  - simpl in *. case_decide; [tauto|].
    destruct (Z.eqb_spec idx x); [intuition congruence|auto].
  - rewrite merge_tokens_cons2. case_decide as Hp.
    + simpl in Hp. destruct Hp as [-> ->].
      destruct IHr as [IH1 IH2]; [simpl in Hidx; tauto|].
      cbn [flat_map List.filter length]. rewrite IH1, Z.eqb_refl.
      case_decide; [|congruence]. split; [reflexivity|].
      cbn [length]. lia.
    + destruct IHyr as [IH1 IH2]; [simpl in Hidx; simpl; tauto|].
      cbn [flat_map List.filter length]. rewrite IH1.
      case_decide as Hx; [simpl in Hidx; intuition congruence|].
      destruct (Z.eqb_spec idx x); [congruence|].
      split; [reflexivity|]. cbn [length] in *. lia.
Qed.

Lemma merge_tokens_inverse_witness :
  expand_id 260 97 97 (merge_tokens [97; 97; 97; 98] (97, 97) 260)
  = [97; 97; 97; 98] /\
  length [97; 97; 97; 98]
  = Nat.add (length (merge_tokens [97; 97; 97; 98] (97, 97) 260))
            (length (List.filter (Z.eqb 260)
                                 (merge_tokens [97; 97; 97; 98] (97, 97) 260))).
Proof.
  apply merge_tokens_inverse. simpl. lia.
Defined.

(** X4. A sequence in which the pair does not occur is returned
    unchanged, and a sequence in which it occurs gets strictly shorter. *)
Theorem merge_tokens_changes_iff_adjacent (tokens : list Z) (p : pair) (idx : Z) :
  (~ adjacent p tokens -> merge_tokens tokens p idx = tokens) /\
  (adjacent p tokens ->
   (length (merge_tokens tokens p idx) < length tokens)%nat).
Proof.
  split; [|apply merge_tokens_length_lt].
  induction tokens as [| x | x y r IHr IHyr] using list_ind2; intros Hadj;
    try reflexivity.
  rewrite merge_tokens_cons2. case_decide as Hp.
  - exfalso. apply Hadj, adjacent_cons. left. destruct p; simpl in *.
    destruct Hp; congruence.
  - f_equal. apply IHyr. intros H. apply Hadj, adjacent_cons. now right.
Qed.

Lemma merge_tokens_changes_iff_adjacent_witness :
  merge_tokens [97; 98; 99] (98, 97) 260 = [97; 98; 99] /\
  Nat.lt (length (merge_tokens [97; 98; 99] (97, 98) 260)) 3.
Proof.
  split.
  - apply (merge_tokens_changes_iff_adjacent [97; 98; 99] (98, 97) 260).
    unfold adjacent. simpl. intros [[=]|[[=]|[]]].
  - apply (merge_tokens_changes_iff_adjacent [97; 98; 99] (97, 98) 260).
    unfold adjacent. simpl. auto.
Defined.

(** ** What [encode] returns *)

Lemma encode_loop_end m fuel : forall tokens out,
  encode_loop fuel m tokens = Some (Ok out) ->
  (length out < 2)%nat \/ encode_body m out = Ok None.
Proof.
  induction fuel as [|fuel IH]; intros tokens out; simpl.
  - destruct (2 <=? Z.of_nat (length tokens)) eqn:Hc; [discriminate|].
    intros [= <-]. left. lia.
  - destruct (2 <=? Z.of_nat (length tokens)) eqn:Hc;
      [|intros [= <-]; left; lia].
    destruct (encode_body m tokens) as [[tokens'|]|e] eqn:Hb.
    + apply IH.
    + intros [= <-]. now right.
    + discriminate.
Qed.

(** X5. The sequence [encode] returns is fully merged: no two adjacent
    ids of it form a pair of the merge table. *)
Theorem encode_output_saturated (self : Tokenizer) (text : str) (out : list Z) :
  encode self text = Some (Ok out) ->
  forall q, adjacent q out -> odict.get (merges self) q = None.
Proof.
  unfold encode. destruct (utf8.encode text) as [bs|e]; [|discriminate].
  intros [Hshort|Hbreak]%encode_loop_end q Hq.
  - now apply adjacent_short in Hq.
  - eapply encode_body_break; eauto.
Qed.

Lemma encode_output_saturated_witness :
  adjacent (98, 260) [260; 97; 98; 260; 97; 98] /\
  odict.get [((97, 97), 260)] (98, 260) = None.
Proof.
  assert (Hadj : adjacent (98, 260) [260; 97; 98; 260; 97; 98])
    by (unfold adjacent; simpl; auto).
  split; [exact Hadj|].
  apply (encode_output_saturated
           (mkTokenizer 261 ∅ [((97, 97), 260)] []) (py_str "aaabaaab")
           [260; 97; 98; 260; 97; 98]).
  - vm_compute. reflexivity.
  - exact Hadj.
Defined.

(** X6. [encode] fails only on a text that UTF-8 cannot encode (one with
    a surrogate code point), with [UnicodeEncodeError]; on every other
    text it returns a sequence no longer than the text's UTF-8 encoding,
    and that encoding itself when the merge table is empty. *)
Theorem encode_outcome (self : Tokenizer) (text : str) :
  (forallb utf8.is_scalar text = false ->
   encode self text = Some (Raise UnicodeEncodeError)) /\
  (forallb utf8.is_scalar text = true ->
   exists out, encode self text = Some (Ok out) /\
               (length out <= length (utf8.encode_bytes text))%nat /\
               (merges self = [] -> out = utf8.encode_bytes text)).
Proof.
  unfold encode, utf8.encode. split; intros Hs; rewrite Hs; [reflexivity|].
  destruct (encode_loop_enough (merges self) _ (utf8.encode_bytes text)
                               (le_n _)) as (out & Hout & Hlen).
  exists out. split; [assumption|]. split; [assumption|].
  intros Hm. rewrite Hm in Hout. clear -Hout.
  destruct (length (utf8.encode_bytes text)) as [|n] eqn:Hn; simpl in Hout.
  - rewrite Hn in Hout. simpl in Hout. congruence.
  - rewrite Hn in Hout. destruct (2 <=? Z.of_nat (S n)); [|congruence].
    unfold encode_body in Hout.
    destruct (odict.keys (get_stats (utf8.encode_bytes text))); simpl in Hout;
      congruence.
Qed.

Lemma encode_outcome_witness :
  encode (init 1024) [104; 55296] = Some (Raise UnicodeEncodeError) /\
  exists out, encode (init 1024) [104; 233] = Some (Ok out) /\
              Nat.le (length out) (length (utf8.encode_bytes [104; 233])) /\
              (merges (init 1024) = [] -> out = utf8.encode_bytes [104; 233]).
Proof.
  split.
  - apply (encode_outcome (init 1024) [104; 55296]). reflexivity.
  - apply (encode_outcome (init 1024) [104; 233]). reflexivity.
Defined.

(** X7. After [train] has returned normally on a new tokenizer of target
    size [V], every id that [encode] produces, for any text, is a byte id
    or a merge id below [V], and has a vocabulary entry. *)
Theorem encode_ids_in_vocab (findall : str -> list str)
        V corpus tk text out t :
  train findall (init V) corpus = (tk, None) ->
  encode tk text = Some (Ok out) ->
  In t out ->
  (0 <= t < 256 \/ 256 + Z.of_nat (length SPECIAL_TOKENS) <= t < V) /\
  is_Some (vocab tk !! t).
Proof.
  intros (ctokens & ctokens' & n & _ & Hn & _ & Hinv & _ & _ & Hdom & _)
           %train_init_ok.
  unfold encode. destruct (utf8.encode text) as [bs|e] eqn:Henc; [|discriminate].
  intros Hout Ht.
  assert (Hres : forall t, In t out -> resolved n t).
  { apply (encode_loop_invariant (fun ts => forall t, In t ts -> resolved n t)
                                 (merges tk)) with (3 := Hout).
    - intros tokens tokens' Htok
             ([a b] & idx & _ & Hg%odict_get_In & -> & _)%encode_body_next.
      pose proof (train_inv_value_lt _ _ _ _ _ Hinv Hg).
      intros t' [->|Hin]%merge_tokens_In; [|now apply Htok].
      right. special_count. lia.
    - intros b Hb. left. eapply utf8_encode_range; eauto. }
  split; [|apply Hdom; auto].
  specialize (Hres t Ht). unfold resolved in Hres. special_count. lia.
Qed.

Lemma encode_ids_in_vocab_witness :
  (0 <= 260 < 256 \/ 256 + Z.of_nat (length SPECIAL_TOKENS) <= 260 < 261) /\
  is_Some (vocab (fst (train whole_text (init 261) (py_str "aaabaaab"))) !! 260).
Proof.
  apply (encode_ids_in_vocab whole_text 261 (py_str "aaabaaab")
           (fst (train whole_text (init 261) (py_str "aaabaaab")))
           (py_str "aab") [260; 98] 260).
  - vm_compute. reflexivity.
  - vm_compute. reflexivity.
  - left. reflexivity.
Defined.

(** ** [add_special_tokens] *)

(** [Tokenizer.add_special_tokens]: the two ids are looked up by name in
    [SPECIAL_TOKENS]. *)
Definition add_special_tokens (tokens : list Z) : result (list Z) :=
  match odict.get SPECIAL_TOKENS "<BOS>"%string,
        odict.get SPECIAL_TOKENS "<EOS>"%string with
  | Some bos, Some eos => Ok ([bos] ++ tokens ++ [eos])
  | _, _ => Raise KeyError
  end.

Lemma add_special_tokens_eq tokens :
  add_special_tokens tokens = Ok (2 :: tokens ++ [3]).
Proof. reflexivity. Qed.

Lemma filter_special_wrapped tokens :
  List.filter (fun t => negb (is_special t)) (2 :: tokens ++ [3])
  = List.filter (fun t => negb (is_special t)) tokens.
Proof.
  change (2 :: tokens ++ [3]) with ([2] ++ tokens ++ [3]).
  rewrite !List.filter_app. simpl. apply app_nil_r.
Qed.

Lemma decode_vector (self : Tokenizer) tokens :
  length tokens <> 1%nat ->
  decode self (Vector tokens)
  = bind (lookup_all (vocab self)
                     (List.filter (fun t => negb (is_special t)) tokens))
         (fun chunks => Ok (utf8.decode_replace (concat chunks))).
Proof.
  intros Hlen. unfold decode. now rewrite squeeze_vector.
Qed.

(** X8. [add_special_tokens] never fails: it puts id 2 in front and id 3
    behind, so the result is two ids longer.  Decoding the wrapped
    sequence never meets the 0-d tensor error, and gives what decoding the
    bare sequence gives whenever that one has not exactly one id. *)
Theorem add_special_tokens_decode (self : Tokenizer) (tokens : list Z) :
  add_special_tokens tokens = Ok (2 :: tokens ++ [3]) /\
  length (2 :: tokens ++ [3]) = (length tokens + 2)%nat /\
  decode self (Vector (2 :: tokens ++ [3])) <> Raise TypeError /\
  (length tokens <> 1%nat ->
   decode self (Vector (2 :: tokens ++ [3])) = decode self (Vector tokens)).
Proof.
  assert (Hw : length (2 :: tokens ++ [3]) <> 1%nat).
  { simpl. rewrite length_app. simpl. lia. }
  split; [reflexivity|]. split; [simpl; rewrite length_app; simpl; lia|].
  rewrite (decode_vector self _ Hw), filter_special_wrapped. split.
  - destruct (lookup_all (vocab self) _) as [chunks|e] eqn:Hl; simpl;
      [discriminate|].
    assert (e = KeyError); [|congruence].
    clear -Hl. revert Hl.
    generalize (List.filter (fun t => negb (is_special t)) tokens) as l.
    induction l as [|t l IH]; simpl; [discriminate|].
    destruct (vocab self !! t); [|congruence].
    destruct (lookup_all (vocab self) l); simpl; [discriminate|].
    intros [= <-]. now apply IH.
  - intros Hlen. now rewrite (decode_vector self _ Hlen).
Qed.

Lemma add_special_tokens_decode_witness :
  decode (init 1024) (Vector (2 :: [104; 105] ++ [3]))
  = decode (init 1024) (Vector [104; 105]).
Proof.
  apply (add_special_tokens_decode (init 1024) [104; 105]). simpl. lia.
Defined.

(** ** Round trips *)

(** On a tokenizer trained from new, the ids that [encode] returns for a
    text whose bytes avoid 0 to 3 are not special, and their vocabulary
    entries concatenate to the UTF-8 bytes of the text. *)
Lemma encode_expansion (findall : str -> list str) V corpus tk text bs :
  train findall (init V) corpus = (tk, None) ->
  utf8.encode text = Ok bs ->
  (forall b, In b bs -> ~ 0 <= b <= 3) ->
  exists out chunks,
    encode tk text = Some (Ok out) /\
    (forall t, In t out -> is_special t = false) /\
    lookup_all (vocab tk) out = Ok chunks /\ concat chunks = bs.
Proof.
  intros (ctokens & ctokens' & n & _ & _ & _ & Hinv & _ & Hlow & _ & He)
           %train_init_ok Henc Hbs.
  set (P := fun ts : list Z =>
              (forall t, In t ts -> is_special t = false) /\
              exists chunks, lookup_all (vocab tk) ts = Ok chunks /\
                             concat chunks = bs).
  assert (Hstep : forall tokens tokens',
             P tokens -> encode_body (merges tk) tokens = Ok (Some tokens') ->
             P tokens').
  { intros tokens tokens' [Hns (chunks & Hl & Hc)]
           ([a b] & idx & _ & Hg%odict_get_In & -> & _)%encode_body_next.
    destruct (He a b idx Hg) as (va & vb & Ha & Hb & Hidx).
    pose proof (train_inv_value_lt _ _ _ _ _ Hinv Hg) as Hi.
    split.
    - intros t [->|Ht]%merge_tokens_In; [|now apply Hns].
      destruct (is_special idx) eqn:Hsp; [|reflexivity].
      apply is_special_spec in Hsp. lia.
    - destruct (lookup_all_merge_tokens _ _ _ _ _ _ _ _ Ha Hb Hidx Hl)
        as (chunks' & Hl' & Hc').
      exists chunks'. split; [assumption|congruence]. }
  assert (HP0 : P bs).
  { split.
    - intros t Ht. destruct (is_special t) eqn:Hsp; [|reflexivity].
      apply is_special_spec in Hsp. now apply Hbs in Ht.
    - destruct (lookup_all_bytes (vocab tk) bs) as [Hl Hc].
      + intros b Hb. pose proof (utf8_encode_range _ _ _ Henc Hb).
        specialize (Hbs b Hb). rewrite Hlow by lia.
        apply init_vocab_byte. lia.
      + eauto. }
  destruct (encode_loop_enough (merges tk) (length bs) bs (le_n _))
    as (out & Hout & _).
  destruct (encode_loop_invariant P (merges tk) Hstep _ _ _ HP0 Hout)
    as [Hns (chunks & Hl & Hc)].
  exists out, chunks. unfold encode. rewrite Henc. auto.
Qed.

(** X9. With the special tokens added, the round trip holds for every
    text whose UTF-8 bytes avoid 0 to 3, on every tokenizer trained from
    new: [decode(add_special_tokens(encode(text)))] is the text. *)
Theorem round_trip_with_special_tokens (findall : str -> list str)
        V corpus tk text bs :
  train findall (init V) corpus = (tk, None) ->
  utf8.encode text = Ok bs ->
  (forall b, In b bs -> ~ 0 <= b <= 3) ->
  exists out wrapped,
    encode tk text = Some (Ok out) /\
    add_special_tokens out = Ok wrapped /\
    decode tk (Vector wrapped) = Ok text.
Proof.
  intros Htrain Henc Hbs.
  destruct (encode_expansion findall V corpus tk text bs Htrain Henc Hbs)
    as (out & chunks & Hout & Hns & Hl & Hc).
  exists out, (2 :: out ++ [3]). split; [assumption|]. split; [reflexivity|].
  rewrite decode_vector by (simpl; rewrite length_app; simpl; lia).
  rewrite filter_special_wrapped.
  rewrite filter_keeps_all by (intros x Hx; now rewrite (Hns x Hx)).
  rewrite Hl. simpl. rewrite Hc. f_equal. now apply utf8_round_trip.
Qed.

Lemma round_trip_with_special_tokens_witness :
  exists out wrapped,
    encode (fst (train whole_text (init 261) (py_str "aaabaaab"))) (py_str "aa")
    = Some (Ok out) /\
    add_special_tokens out = Ok wrapped /\
    decode (fst (train whole_text (init 261) (py_str "aaabaaab")))
           (Vector wrapped) = Ok (py_str "aa").
Proof.
  apply (round_trip_with_special_tokens whole_text 261 (py_str "aaabaaab")
           (fst (train whole_text (init 261) (py_str "aaabaaab")))
           (py_str "aa") [97; 97]).
  - vm_compute. reflexivity.
  - reflexivity.
  - intros b [<-|[<-|[]]]; lia.
Defined.

Lemma round_trip_except_single_token_witness :
  exists out,
    encode (fst (train whole_text (init 261) (py_str "aaabaaab")))
           (py_str "aaab") = Some (Ok out) /\
    (length out <> 1%nat ->
     decode (fst (train whole_text (init 261) (py_str "aaabaaab")))
            (Vector out) = Ok (py_str "aaab")) /\
    (length out = 1%nat ->
     decode (fst (train whole_text (init 261) (py_str "aaabaaab")))
            (Vector out) = Raise TypeError).
Proof.
  apply (round_trip_except_single_token whole_text 261 (py_str "aaabaaab")
           (fst (train whole_text (init 261) (py_str "aaabaaab")))
           (py_str "aaab") [97; 97; 97; 98]).
  - vm_compute. reflexivity.
  - reflexivity.
  - intros b [<-|[<-|[<-|[<-|[]]]]]; lia.
Defined.

(** ** [get_stats_with_memoization] *)

(** [Tokenizer.get_stats_with_memoization]: the cache is keyed by the
    token sequence; the call returns the statistics and the tokenizer with
    its cache possibly extended. *)
Definition get_stats_with_memoization (self : Tokenizer) (tokens : list Z)
  : list (pair * Z) * Tokenizer :=
  let tuple_tokens := tokens in
  match odict.get (stats_cache self) tuple_tokens with
  | Some stats => (stats, self)
  | None =>
      let stats := get_stats tokens in
      (stats,
       mkTokenizer (vocab_size self) (vocab self) (merges self)
                   (odict.set (stats_cache self) tuple_tokens stats))
  end.

(** Every cached entry is what [get_stats] computes for its key. *)
Definition cache_ok (self : Tokenizer) : Prop :=
  forall tokens stats,
    odict.get (stats_cache self) tokens = Some stats -> stats = get_stats tokens.

(** X10. On a tokenizer whose cache holds only results of [get_stats]
    (as after the constructor), the memoized call returns exactly what
    [get_stats] returns; afterwards the sequence is cached, the cache
    still holds only results of [get_stats], other cache entries are
    unchanged, and so are the vocabulary, the merge table and the target
    size. *)
Theorem get_stats_with_memoization_correct (self : Tokenizer) (tokens : list Z) :
  cache_ok self ->
  fst (get_stats_with_memoization self tokens) = get_stats tokens /\
  cache_ok (snd (get_stats_with_memoization self tokens)) /\
  odict.get (stats_cache (snd (get_stats_with_memoization self tokens))) tokens
  = Some (get_stats tokens) /\
  (forall other, other <> tokens ->
     odict.get (stats_cache (snd (get_stats_with_memoization self tokens))) other
     = odict.get (stats_cache self) other) /\
  vocab (snd (get_stats_with_memoization self tokens)) = vocab self /\
  merges (snd (get_stats_with_memoization self tokens)) = merges self /\
  vocab_size (snd (get_stats_with_memoization self tokens)) = vocab_size self.
Proof.
  intros Hok. unfold get_stats_with_memoization.
  destruct (odict.get (stats_cache self) tokens) as [stats|] eqn:Hg;
    cbn [fst snd stats_cache vocab merges vocab_size].
  - pose proof (Hok _ _ Hg) as ->. repeat split; auto.
  - split; [reflexivity|]. split; [|split; [apply odict_get_set_eq|]].
    + intros ts st. cbn [stats_cache].
      destruct (decide (tokens = ts)) as [<-|Hne].
      * rewrite odict_get_set_eq. congruence.
      * rewrite odict_get_set_ne by assumption. apply Hok.
    + split; [|auto]. intros other Hne.
      apply odict_get_set_ne. congruence.
Qed.

Lemma get_stats_with_memoization_correct_witness :
  fst (get_stats_with_memoization (init 1024) [97; 97; 98])
  = get_stats [97; 97; 98].
Proof.
  refine (proj1 (get_stats_with_memoization_correct
                   (init 1024) [97; 97; 98] _)).
  intros tokens stats H. discriminate H.
Defined.

(** ** The training data set of [train_gpt.py] *)

(** The index an end point of a slice [l[a:b]] stands for. *)
Definition slice_index (len i : Z) : Z :=
  if i <? 0 then Z.max 0 (i + len) else Z.min i len.

(** [l[a:b]] *)
Definition py_slice (l : list Z) (a b : Z) : list Z :=
  let len := Z.of_nat (length l) in
  firstn (Z.to_nat (slice_index len b - slice_index len a))
         (skipn (Z.to_nat (slice_index len a)) l).

Module Dataset.

Record t := mk {
  seq_len : Z;
  tokenizer : Tokenizer;
  data : list Z
}.

(** [Dataset.__init__]: [None] stands for an encoder loop that has not
    ended, as in [encode]. *)
Definition init (text : str) (seq_len : Z) (tokenizer : Tokenizer)
  : option (result t) :=
  match encode tokenizer text with
  | None => None
  | Some (Raise e) => Some (Raise e)
  | Some (Ok d) => Some (Ok (mk (seq_len - 2) tokenizer d))
  end.

(** [Dataset.__len__] *)
Definition len (self : t) : Z := Z.of_nat (length (data self)).

(** [Dataset.__getitem__]: the ids of the two tensors returned. *)
Definition getitem (self : t) (idx : Z) : list Z * list Z :=
  let idx :=
    if Z.of_nat (length (data self)) <? idx + seq_len self + 1 then 0
    else idx in
  let src := py_slice (data self) idx (idx + seq_len self) in
  let tgt := py_slice (data self) (idx + 1) (idx + seq_len self + 1) in
  (src, tgt).

End Dataset.





Lemma py_slice_to_end (l : list Z) (a b : Z) :
  a = 0 \/ a = 1 -> Z.of_nat (length l) <= b ->
  py_slice l a b = skipn (Z.to_nat a) l.
Proof.
  intros Ha Hb. unfold py_slice, slice_index.
  destruct (Z.ltb_spec b 0); [lia|]. destruct (Z.ltb_spec a 0); [lia|].
  rewrite (Z.min_r b) by lia.
  destruct (Z.min_spec a (Z.of_nat (length l))) as [[_ ->]|[Hle ->]].
  - apply firstn_all2. rewrite length_skipn. lia.
  - rewrite Nat2Z.id, Z.sub_diag, skipn_all. simpl.
    symmetry. apply skipn_all2. lia.
Qed.

(** X12. An index whose window does not fit is served as index 0.  When
    the data has no more ids than the window length, every index gets the
    whole data as source and the data without its first id as target, so
    that for non-empty data the two differ in length. *)
Theorem dataset_getitem_overrun (self : Dataset.t) (idx : Z) :
  Dataset.len self < idx + Dataset.seq_len self + 1 ->
  Dataset.getitem self idx = Dataset.getitem self 0 /\
  (0 <= idx -> Dataset.len self <= Dataset.seq_len self ->
   Dataset.getitem self idx = (Dataset.data self, tail (Dataset.data self))).
Proof.
  unfold Dataset.len, Dataset.getitem. intros Hover.
  destruct (Z.ltb_spec (Z.of_nat (length (Dataset.data self)))
                       (idx + Dataset.seq_len self + 1)); [|lia].
  split.
  - destruct (Z.ltb_spec (Z.of_nat (length (Dataset.data self)))
                         (0 + Dataset.seq_len self + 1)); reflexivity.
  - intros Hidx Hshort.
    rewrite !py_slice_to_end by (auto; lia).
    destruct (Dataset.data self); reflexivity.
Qed.

Lemma dataset_getitem_overrun_witness :
  let ds := Dataset.mk 4 (init 1024) [104; 105; 106] in
  Dataset.getitem ds 2 = Dataset.getitem ds 0 /\
  (0 <= 2 -> Dataset.len ds <= Dataset.seq_len ds ->
   Dataset.getitem ds 2 = (Dataset.data ds, tail (Dataset.data ds))).
Proof.
  intros ds. apply (dataset_getitem_overrun ds 2). vm_compute. reflexivity.
Defined.

(** ** Which pair [train] merges *)

(** The distinct elements of a list in the order of their first
    occurrence. *)
Definition first_seen (l : list pair) : list pair :=
  fold_left
    (fun acc q =>
       if in_dec (fun a b : pair => decide (a = b)) q acc then acc
       else acc ++ [q])
    l [].

Lemma odict_keys_set_order (d : list (pair * Z)) q v :
  odict.keys (odict.set d q v)
  = if in_dec (fun a b : pair => decide (a = b)) q (odict.keys d)
    then odict.keys d else odict.keys d ++ [q].
Proof.
  induction d as [|[k c] d IH].
  - reflexivity.
  - cbn [odict.set odict.keys map fst].
    destruct (decide (q = k)) as [->|Hne].
    + destruct (in_dec _ k (k :: map fst d)) as [_|Hout]; [reflexivity|].
      exfalso. apply Hout. now left.
    + cbn [map fst]. fold (odict.keys d). fold (odict.keys (odict.set d q v)).
      rewrite IH.
      destruct (in_dec _ q (odict.keys d)) as [Hin|Hout];
        destruct (in_dec _ q (k :: odict.keys d)) as [Hin'|Hout'];
        try reflexivity.
      * exfalso. apply Hout'. now right.
      * exfalso. destruct Hin' as [?|?]; [congruence|tauto].
Qed.

Lemma get_stats_key_order tokens :
  odict.keys (get_stats tokens) = first_seen (zip tokens (tail tokens)).
Proof.
  unfold get_stats, first_seen.
  change (@nil pair) with (odict.keys (@nil (pair * Z))) at 2.
  generalize (@nil (pair * Z)) as acc.
  induction (zip tokens (tail tokens)) as [|q l IH]; intros acc;
    [reflexivity|].
  cbn [fold_left]. rewrite IH, odict_keys_set_order. reflexivity.
Qed.

Lemma max_from_split {A} (key : A -> Z) l : forall best,
  exists l1 l2,
    best :: l = l1 ++ max_from key best l :: l2 /\
    (forall q, In q l1 -> key q < key (max_from key best l)) /\
    (forall q, In q l2 -> key q <= key (max_from key best l)).
Proof.
  induction l as [|x l IH]; intros best.
  - exists [], []. simpl. repeat split; tauto.
  - simpl. destruct (Z.ltb_spec (key best) (key x)) as [Hlt|Hge].
    + destruct (IH x) as (l1 & l2 & Heq & H1 & H2).
      exists (best :: l1), l2. rewrite Heq at 1.
      split; [reflexivity|]. split; [|assumption].
      assert (Hx : key x <= key (max_from key x l)).
      { assert (Hin : In x (l1 ++ max_from key x l :: l2))
          by (rewrite <- Heq; now left).
        apply in_app_iff in Hin as [Hin|[Hm|Hin]].
        - apply H1 in Hin. lia.
        - rewrite Hm. lia.
        - apply H2 in Hin. lia. }
      intros q [<-|Hq]; [lia|now apply H1].
    + destruct (IH best) as (l1 & l2 & Heq & H1 & H2).
      destruct l1 as [|b l1].
      * injection Heq as Hb Hl. exists [], (x :: l).
        rewrite <- Hb. split; [reflexivity|]. split; [intros ? []|].
        intros q [<-|Hq]; [lia|]. rewrite Hb. apply H2. now rewrite <- Hl.
      * injection Heq as <- Hl. exists (best :: x :: l1), l2.
        split; [simpl; do 2 f_equal; exact Hl|]. split; [|assumption].
        pose proof (H1 best (or_introl eq_refl)).
        intros q [<-|[<-|Hq]]; [assumption|lia|]. apply H1. now right.
Qed.

Lemma get_stats_key_count tokens q :
  default 0 (odict.get (get_stats tokens) q)
  = count_pair q (zip tokens (tail tokens)).
Proof.
  destruct (get_stats_counts tokens q) as [-> _].
  case_decide as H0; [now rewrite H0|reflexivity].
Qed.

(** X13. Each iteration of the merge loop on a sequence of at least two
    tokens merges an adjacent pair of maximal frequency; among the pairs of
    that frequency it is the one that is met first in the sequence (every
    distinct pair met before it is strictly less frequent).  The pair gets
    the id [256 + i + S] and the loop goes on with the rewritten
    sequence. *)
Theorem train_loop_selects_most_frequent (i : Z) (ids tokens : list Z)
        (m : list (pair * Z)) :
  (2 <= length tokens)%nat ->
  exists p before after,
    first_seen (zip tokens (tail tokens)) = before ++ p :: after /\
    adjacent p tokens /\
    (forall q, count_pair q (zip tokens (tail tokens))
               <= count_pair p (zip tokens (tail tokens))) /\
    (forall q, In q before ->
               count_pair q (zip tokens (tail tokens))
               < count_pair p (zip tokens (tail tokens))) /\
    train_loop (i :: ids) tokens m
    = train_loop ids
        (merge_tokens tokens p (256 + i + Z.of_nat (length SPECIAL_TOKENS)))
        (odict.set m p (256 + i + Z.of_nat (length SPECIAL_TOKENS))).
Proof.
  intros Hlen. special_count. rewrite train_loop_cons.
  rewrite <- get_stats_key_order.
  destruct (odict.keys (get_stats tokens)) as [|x l] eqn:Hk;
    [now apply get_stats_nonempty in Hlen|].
  cbv zeta.
  set (key := fun p : pair => default 0 (odict.get (get_stats tokens) p)).
  destruct (max_from_split key l x) as (l1 & l2 & Heq & H1 & H2).
  set (p := max_from key x l) in *.
  assert (Hkey : forall q, key q = count_pair q (zip tokens (tail tokens)))
    by (intros; apply get_stats_key_count).
  exists p, l1, l2. split; [assumption|]. split; [|split; [|split]].
  - apply get_stats_keys. rewrite Hk, Heq. apply in_app_iff. right. now left.
  - intros q. rewrite <- !Hkey.
    destruct (in_dec (fun a b : pair => decide (a = b)) q (x :: l)) as [Hin|Hout].
    + rewrite Heq in Hin. apply in_app_iff in Hin as [Hin|[Hm|Hin]].
      * apply H1 in Hin. lia.
      * rewrite <- Hm. lia.
      * apply H2 in Hin. lia.
    + rewrite <- Hk in Hout.
      apply odict_get_None in Hout. unfold key at 1. rewrite Hout. simpl.
      rewrite Hkey. apply count_pair_nonneg.
  - intros q Hq. rewrite <- !Hkey. now apply H1.
  - replace (256 + i + 4) with (260 + i) by lia. reflexivity.
Qed.

Lemma train_loop_selects_most_frequent_witness :
  exists p before after,
    first_seen (zip [97; 98; 97; 98; 99; 99; 99] (tail [97; 98; 97; 98; 99; 99; 99]))
    = before ++ p :: after /\
    adjacent p [97; 98; 97; 98; 99; 99; 99] /\
    (forall q, count_pair q (zip [97; 98; 97; 98; 99; 99; 99]
                                 (tail [97; 98; 97; 98; 99; 99; 99]))
               <= count_pair p (zip [97; 98; 97; 98; 99; 99; 99]
                                    (tail [97; 98; 97; 98; 99; 99; 99]))) /\
    (forall q, In q before ->
               count_pair q (zip [97; 98; 97; 98; 99; 99; 99]
                                 (tail [97; 98; 97; 98; 99; 99; 99]))
               < count_pair p (zip [97; 98; 97; 98; 99; 99; 99]
                                   (tail [97; 98; 97; 98; 99; 99; 99]))) /\
    train_loop (0 :: []) [97; 98; 97; 98; 99; 99; 99] []
    = train_loop []
        (merge_tokens [97; 98; 97; 98; 99; 99; 99] p
                      (256 + 0 + Z.of_nat (length SPECIAL_TOKENS)))
        (odict.set [] p (256 + 0 + Z.of_nat (length SPECIAL_TOKENS))).
Proof.
  apply (train_loop_selects_most_frequent 0 [] [97; 98; 97; 98; 99; 99; 99] []).
  simpl. lia.
Defined.

(** In that example the pairs (97,98) and (99,99) both occur twice; the
    one met first, (97,98), is merged. *)
Lemma train_tie_break_example :
  train_loop [0] [97; 98; 97; 98; 99; 99; 99] []
  = ([((97, 98), 260)], [260; 260; 99; 99; 99], None).
Proof. vm_compute. reflexivity. Qed.

(** ** More on the outcome of [train] *)

Lemma train_short_corpus_raises_witness :
  snd (train whole_text (init 264) (py_str "abab")) = Some ValueError.
Proof.
  apply (train_short_corpus_raises whole_text 264 (py_str "abab")
                                   [97; 98; 97; 98]).
  - reflexivity.
  - simpl. lia.
  - simpl. lia.
Defined.

(** On a new tokenizer the vocabulary loop of [train] finds every id it
    looks up. *)
Lemma train_new_build_vocab V tokens m tokens' :
  (forall b, In b tokens -> 0 <= b < 256) ->
  train_loop (range (V - 256 - 4)) tokens [] = (m, tokens', None) ->
  exists v,
    build_vocab m (vocab (init V)) = (v, None) /\
    (forall k, is_Some (v !! k)
               <-> 0 <= k < 256 \/ 260 <= k < 260 + Z.of_nat (length m)) /\
    odict.values m = seqZ 260 (Z.of_nat (length m)).
Proof.
  intros Hb Hrun.
  pose proof (train_loop_inv (Z.to_nat (V - 256 - 4)) 0 tokens [] (Z.le_refl 0)
                (train_inv_init tokens Hb)) as Hloop.
  rewrite <- range_to_nat, Hrun in Hloop.
  set (n := 260 + 0 + Z.of_nat (Z.to_nat (V - 256 - 4))) in *.
  assert (Hlen : Z.of_nat (length m) = n - 260).
  { pose proof (inv_values _ _ _ Hloop) as Hv.
    apply (f_equal (@length Z)) in Hv. unfold odict.values in Hv.
    rewrite length_map, length_seqZ in Hv. lia. }
  assert (Hvals : odict.values m = seqZ 260 (Z.of_nat (length m))).
  { rewrite Hlen. apply (inv_values _ _ _ Hloop). }
  destruct (build_vocab_ok m (vocab (init V)) 260) as (v & Hrunb & _ & Hd & _).
  { lia. }
  { exact Hvals. }
  { apply (inv_parts _ _ _ Hloop). }
  { intros k Hk. apply init_vocab_dom. unfold resolved in Hk.
    special_count. lia. }
  exists v. split; [assumption|]. split; [|assumption].
  intros k. split.
  - intros Hs.
    destruct (in_dec Z.eq_dec k (odict.values m)) as [Hin|Hout].
    + rewrite Hvals in Hin. apply list_elem_of_In, elem_of_seqZ in Hin. lia.
    + pose proof (build_vocab_frame m (vocab (init V)) k Hout) as Hf.
      rewrite Hrunb in Hf. cbn [fst] in Hf. rewrite Hf in Hs.
      apply init_vocab_dom in Hs. lia.
  - intros Hk. apply Hd. unfold resolved. special_count. lia.
Qed.

(** X15. [train] on a new tokenizer can only fail in two ways: with
    [UnicodeEncodeError] when a chunk of the corpus cannot be encoded, or
    with [ValueError] when an iteration finds no pair; the vocabulary loop
    never meets a missing key.  In both cases the vocabulary is the one
    the constructor built. *)
Theorem train_new_failure (findall : str -> list str) V text e :
  snd (train findall (init V) text) = Some e ->
  (e = UnicodeEncodeError \/ e = ValueError) /\
  (e = UnicodeEncodeError <-> exists e', join_encoded (findall text) = Raise e') /\
  vocab (fst (train findall (init V) text)) = vocab (init V).
Proof.
  rewrite train_init_unfold.
  destruct (join_encoded (findall text)) as [tokens|e0] eqn:Hj.
  - destruct (train_loop _ _ _) as [[m ts] [e1|]] eqn:Hrun; cbn [fst snd vocab].
    + intros [= <-]. pose proof (train_loop_raises _ _ _ _ _ _ Hrun) as ->.
      split; [now right|]. split; [|reflexivity].
      split; [discriminate|]. intros [e' He']. discriminate He'.
    + destruct (train_new_build_vocab V tokens m ts) as (v & Hb & _).
      { intros b Hin. eapply join_encoded_range; eauto. }
      { exact Hrun. }
      rewrite Hb. cbn [snd]. discriminate.
  - cbn [fst snd]. intros [= <-].
    pose proof (join_encoded_raises _ _ Hj) as ->.
    split; [now left|]. split; [|reflexivity]. split; eauto.
Qed.

Lemma train_new_failure_witness :
  (UnicodeEncodeError = UnicodeEncodeError \/ UnicodeEncodeError = ValueError) /\
  (UnicodeEncodeError = UnicodeEncodeError
   <-> exists e', join_encoded (whole_text [104; 56832]) = Raise e') /\
  vocab (fst (train whole_text (init 300) [104; 56832])) = vocab (init 300).
Proof.
  apply (train_new_failure whole_text 300 [104; 56832] UnicodeEncodeError).
  vm_compute. reflexivity.
Defined.

(** X16. After [train] has returned normally on a new tokenizer of target
    size [V], the ids with a vocabulary entry are exactly the byte ids 0
    to 255 and the merge ids from [256 + S] up to [V - 1]; the ids 256 to
    [256 + S - 1] have none. *)
Theorem train_vocab_domain (findall : str -> list str) V text tk k :
  train findall (init V) text = (tk, None) ->
  is_Some (vocab tk !! k)
  <-> 0 <= k < 256 \/ 256 + Z.of_nat (length SPECIAL_TOKENS) <= k < V.
Proof.
  special_count. rewrite train_init_unfold.
  destruct (join_encoded (findall text)) as [tokens|e0] eqn:Hj; [|discriminate].
  destruct (train_loop _ _ _) as [[m ts] [e1|]] eqn:Hrun; [discriminate|].
  destruct (train_new_build_vocab V tokens m ts) as (v & Hb & Hdom & Hvals).
  { intros b Hin. eapply join_encoded_range; eauto. }
  { exact Hrun. }
  rewrite Hb. cbn [fst snd]. intros [= <-]. cbn [vocab]. rewrite Hdom.
  pose proof (train_loop_inv (Z.to_nat (V - 256 - 4)) 0 tokens [] (Z.le_refl 0)
                (train_inv_init tokens
                   (fun b => join_encoded_range _ _ b Hj))) as Hloop.
  rewrite <- range_to_nat, Hrun in Hloop.
  pose proof (inv_values _ _ _ Hloop) as Hv.
  apply (f_equal (@length Z)) in Hv. unfold odict.values in Hv.
  rewrite length_map, length_seqZ in Hv. lia.
Qed.

Lemma train_vocab_domain_witness :
  is_Some (vocab (fst (train whole_text (init 262) (py_str "aaabaaab"))) !! 258)
  <-> 0 <= 258 < 256 \/ 256 + Z.of_nat (length SPECIAL_TOKENS) <= 258 < 262.
Proof.
  apply (train_vocab_domain whole_text 262 (py_str "aaabaaab")).
  vm_compute. reflexivity.
Defined.

(** ** Vocabulary entries are never empty *)

Lemma build_vocab_nonempty items : forall (v : gmap Z (list Z)),
  (forall k bs, v !! k = Some bs -> bs <> []) ->
  forall k bs, fst (build_vocab items v) !! k = Some bs -> bs <> [].
Proof.
  induction items as [|[[a b] idx] items IH]; intros v Hv; [exact Hv|].
  rewrite build_vocab_cons.
  destruct (v !! a) as [va|] eqn:Ha; [|exact Hv].
  destruct (v !! b) as [vb|] eqn:Hb; [|exact Hv].
  apply IH. intros k bs. destruct (decide (idx = k)) as [->|Hne].
  - rewrite lookup_insert_eq. intros [= <-].
    apply Hv in Ha. destruct va; [congruence|discriminate].
  - rewrite lookup_insert_ne by assumption. apply Hv.
Qed.

(** X17. In every tokenizer state that the constructor and calls of
    [train] produce, whether those calls returned or raised, every
    vocabulary entry is a non-empty byte string. *)
Theorem vocab_entries_nonempty (findall : str -> list str) self k bs :
  constructed findall self -> vocab self !! k = Some bs -> bs <> [].
Proof.
  intros Hc. revert k bs. induction Hc as [V|self text Hc IH].
  - intros k bs Hk.
    assert (Hdom : 0 <= k < 256) by (apply (init_vocab_dom V); eauto).
    destruct (decide (4 <= k)).
    + rewrite init_vocab_byte in Hk by lia. injection Hk as <-. discriminate.
    + destruct (init_vocab_special V) as (H0 & H1 & H2 & H3).
      assert (k = 0 \/ k = 1 \/ k = 2 \/ k = 3) as [-> | [-> | [-> | ->]]]
        by lia;
        [rewrite H0 in Hk|rewrite H1 in Hk|rewrite H2 in Hk|rewrite H3 in Hk];
        injection Hk as <-; discriminate.
  - unfold train.
    destruct (join_encoded (findall text)) as [tokens|e0]; [|exact IH].
    destruct (train_loop _ _ _) as [[m ts] [e|]]; [exact IH|].
    pose proof (build_vocab_nonempty m (vocab self) IH) as Hb.
    destruct (build_vocab m (vocab self)) as [v e']. exact Hb.
Qed.

Lemma vocab_entries_nonempty_witness :
  vocab (fst (train whole_text (init 261) (py_str "aaabaaab"))) !! 260
  = Some [97; 97] /\
  [97; 97] <> @nil Z.
Proof.
  assert (H : vocab (fst (train whole_text (init 261) (py_str "aaabaaab")))
              !! 260 = Some [97; 97]) by (vm_compute; reflexivity).
  split; [exact H|].
  apply (vocab_entries_nonempty whole_text
           (fst (train whole_text (init 261) (py_str "aaabaaab"))) 260).
  - apply constructed_train, constructed_init.
  - exact H.
Defined.

(** ** Training a tokenizer a second time *)

(** A tokenizer trained on "aaaa" and then again on "bbbb", both with
    target size 261: the second call numbers its merge from [256 + S]
    again. *)
Definition retrained : Tokenizer * option exn :=
  train whole_text (fst (train whole_text (init 261) (py_str "aaaa")))
        (py_str "bbbb").

(** C6 (the claim as stated fails). The second call of [train] returns
    normally; the merge table maps both (97,97) and (98,98) to id 260, and
    the vocabulary loop, going through the table in insertion order,
    leaves [vocab[260]] equal to "bb", which is not
    [vocab[97] + vocab[97]]. *)
Lemma train_vocab_consistent_counterexample :
  snd retrained = None /\
  odict.get (merges (fst retrained)) (97, 97) = Some 260 /\
  vocab (fst retrained) !! 97 = Some [97] /\
  vocab (fst retrained) !! 260 = Some [98; 98] /\
  ~ exists va vb,
      vocab (fst retrained) !! 97 = Some va /\
      vocab (fst retrained) !! 97 = Some vb /\
      vocab (fst retrained) !! 260 = Some (va ++ vb).
Proof.
  assert (H97 : vocab (fst retrained) !! 97 = Some [97])
    by (vm_compute; reflexivity).
  assert (H260 : vocab (fst retrained) !! 260 = Some [98; 98])
    by (vm_compute; reflexivity).
  split; [vm_compute; reflexivity|]. split; [vm_compute; reflexivity|].
  split; [exact H97|]. split; [exact H260|].
  intros (va & vb & Ha & Hb & Hm).
  rewrite H97 in Ha, Hb. rewrite H260 in Hm.
  injection Ha as <-. injection Hb as <-. discriminate Hm.
Qed.
